(** * EduPilot: the AI proxy route and the quiz component

    A shallow embedding of two source files:

    - [src/app/api/ai/route.ts], the [POST] handler that proxies a study
      request to the model provider, with its response cache, its map of
      ongoing requests and its retry loop (module [Route]);
    - the [QuizGenerator] component, with the validation of the provider's
      payload and the question-by-question state (module [Quiz]).

    Module [Js] holds what both need of JavaScript values: parsed JSON,
    truthiness, property access and strict equality. *)

From Stdlib Require Import ZArith String Ascii List Bool Lia.
From Stdlib Require QArith.
From stdpp Require Import base option list gmap strings.
Import ListNotations.

Local Open Scope Z_scope.

(* ===================================================================== *)
(** ** JavaScript values *)
(* ===================================================================== *)

Module Js.

(** A value built by [JSON.parse]. Numbers are the rationals their
    literals denote. An object is its list of fields in source order. *)
#[warnings="-register-all"]
Inductive Json : Type :=
| JNull
| JBool (b : bool)
| JNum (q : QArith_base.Q)
| JStr (s : string)
| JArr (items : list Json)
| JObj (fields : list (string * Json)).

(** [ToBoolean]: [null], [false], [0] and the empty string are falsy;
    arrays and objects are truthy. *)
Definition truthy (v : Json) : bool :=
  match v with
  | JNull => false
  | JBool b => b
  | JNum q => negb (QArith_base.Qnum q =? 0)
  | JStr s => negb (String.eqb s EmptyString)
  | JArr _ | JObj _ => true
  end.

(** A JavaScript expression yields a value or [undefined]. *)
Definition truthy_opt (v : option Json) : bool :=
  match v with
  | Some w => truthy w
  | None => false
  end.

(** The own property [name] of an object; when [JSON.parse] meets a key
    twice the later field wins. *)
Fixpoint own (name : string) (fields : list (string * Json)) : option Json :=
  match fields with
  | [] => None
  | (k, v) :: rest =>
      match own name rest with
      | Some w => Some w
      | None => if String.eqb k name then Some v else None
      end
  end.

(** [v.name] for a property name that is neither an index nor a built-in
    of [Object], [Array], [String], [Number] or [Boolean] (every name the
    two files read is such a name). Reading a property of [null] throws a
    [TypeError]: the outer [None]. The inner [None] is [undefined]. *)
Definition prop (v : Json) (name : string) : option (option Json) :=
  match v with
  | JNull => None
  | JObj fields => Some (own name fields)
  | JBool _ | JNum _ | JStr _ | JArr _ => Some None
  end.

(** [v.name] where [v] may itself be [undefined], which throws too. *)
Definition prop_opt (v : option Json) (name : string) : option (option Json) :=
  match v with
  | Some w => prop w name
  | None => None
  end.

(** [v[0]]: the first element of an array, the first character of a
    string, the field ["0"] of an object. *)
Definition at0 (v : option Json) : option (option Json) :=
  match v with
  | None | Some JNull => None
  | Some (JArr items) => Some (head items)
  | Some (JObj fields) => Some (own "0" fields)
  | Some (JStr (String c _)) => Some (Some (JStr (String c EmptyString)))
  | Some (JStr EmptyString) | Some (JBool _) | Some (JNum _) => Some None
  end.

(** [a === b] for two values found at different places of parsed JSON:
    primitives compare by value, and two arrays or objects are never the
    same reference. *)
Definition strict_eq (a b : Json) : bool :=
  match a, b with
  | JNull, JNull => true
  | JBool x, JBool y => Bool.eqb x y
  | JNum x, JNum y => QArith_base.Qeq_bool x y
  | JStr x, JStr y => String.eqb x y
  | _, _ => false
  end.

(** [Array.prototype.every]: stops at the first falsy answer; an exception
    in the callback ([None]) propagates. *)
Fixpoint every (f : Json -> option bool) (items : list Json) : option bool :=
  match items with
  | [] => Some true
  | x :: rest =>
      match f x with
      | None => None
      | Some false => Some false
      | Some true => every f rest
      end
  end.

End Js.

(* ===================================================================== *)
(** ** The quiz component *)
(* ===================================================================== *)

Module Quiz.
Import Js.

(** The six [useState] cells of [QuizGenerator]. [quiz] holds the payload
    as it was parsed: the [QuizQuestion] interface is erased at run time. *)
Record QuizState : Type := {
  quiz : list Json;
  currentQuestionIndex : nat;
  selectedOption : option Json;
  isAnswered : bool;
  score : nat;
  isQuizCompleted : bool
}.

Definition initial : QuizState :=
  {| quiz := []; currentQuestionIndex := 0; selectedOption := None;
     isAnswered := false; score := 0; isQuizCompleted := false |}.

(** What a callback asks of its collaborators. The completion bonus is
    [Math.round((score / quiz.length) * 50)], kept as its two operands. *)
Inductive Effect : Type :=
| AddPoints (points : Z) (reason : string)
| AddCompletionBonus (score len : nat)
| MakeRequest (task text : string)
| ConsoleError (data : Json).

(** How a callback ends. *)
Inductive Completion : Type :=
| Returns
| ThrowsTypeError.

(** [Array.isArray(v)], giving the elements when it holds. *)
Definition isArray (v : option Json) : option (list Json) :=
  match v with
  | Some (JArr items) => Some items
  | _ => None
  end.

(** The callback of [data.every] in [onSuccess]:
    [q.question && Array.isArray(q.options) && q.options.length === 4
     && q.correctAnswer]. Only the first property read can throw: once
    [q.question] has been read, [q] is not [null]. *)
Definition question_ok (q : Json) : option bool :=
  match prop q "question" with
  | None => None
  | Some question =>
      Some (truthy_opt question
            && match isArray (default None (prop q "options")) with
               | Some opts => Z.of_nat (length opts) =? 4
               | None => false
               end
            && truthy_opt (default None (prop q "correctAnswer")))
  end.

(** The guard of [onSuccess]:
    [!Array.isArray(data) || !data.every(...)] is false. *)
Definition valid_quiz (data : Json) : option bool :=
  match isArray (Some data) with
  | None => Some false
  | Some items => every question_ok items
  end.

(** [onSuccess]: an invalid payload is logged and dropped; a valid one
    replaces the quiz and resets the five other cells. *)
Definition onSuccess (s : QuizState) (data : Json)
  : QuizState * list Effect * Completion :=
  match valid_quiz data with
  | None => (s, [], ThrowsTypeError)
  | Some false => (s, [ConsoleError data], Returns)
  | Some true =>
      ({| quiz := default [] (isArray (Some data));
          currentQuestionIndex := 0;
          selectedOption := None;
          isAnswered := false;
          score := 0;
          isQuizCompleted := false |},
       [AddPoints 20 "Generated a quiz"], Returns)
  end.

Definition generateQuiz (studyText : string) : list Effect :=
  [MakeRequest "quiz" studyText].

(** [quiz[currentQuestionIndex]]. *)
Definition currentQuestion (s : QuizState) : option Json :=
  quiz s !! currentQuestionIndex s.

Definition handleOptionSelect (s : QuizState) (option : Json) : QuizState :=
  if isAnswered s then s
  else {| quiz := quiz s;
          currentQuestionIndex := currentQuestionIndex s;
          selectedOption := Some option;
          isAnswered := isAnswered s;
          score := score s;
          isQuizCompleted := isQuizCompleted s |}.

Definition checkAnswer (s : QuizState) : QuizState * list Effect :=
  match selectedOption s, currentQuestion s with
  | Some selected, Some question =>
      if negb (truthy selected) || negb (truthy question) then (s, [])
      else
        let correct :=
          match default None (prop question "correctAnswer") with
          | Some answer => strict_eq selected answer
          | None => false
          end in
        ({| quiz := quiz s;
            currentQuestionIndex := currentQuestionIndex s;
            selectedOption := selectedOption s;
            isAnswered := true;
            score := if correct then (score s + 1)%nat else score s;
            isQuizCompleted := isQuizCompleted s |},
         if correct then [AddPoints 5 "Correct quiz answer"] else [])
  | _, _ => (s, [])
  end.

Definition nextQuestion (s : QuizState) : QuizState * list Effect :=
  if Z.of_nat (currentQuestionIndex s) <? Z.of_nat (length (quiz s)) - 1 then
    ({| quiz := quiz s;
        currentQuestionIndex := (currentQuestionIndex s + 1)%nat;
        selectedOption := None;
        isAnswered := false;
        score := score s;
        isQuizCompleted := isQuizCompleted s |}, [])
  else
    ({| quiz := quiz s;
        currentQuestionIndex := currentQuestionIndex s;
        selectedOption := selectedOption s;
        isAnswered := isAnswered s;
        score := score s;
        isQuizCompleted := true |},
     [AddCompletionBonus (score s) (length (quiz s))]).

Definition restartQuiz (s : QuizState) : QuizState * list Effect :=
  ({| quiz := quiz s;
      currentQuestionIndex := 0;
      selectedOption := None;
      isAnswered := false;
      score := 0;
      isQuizCompleted := false |}, []).

(** The screens of the component's [return] statements. *)
Inductive View : Type :=
| ViewLoading
| ViewError (message : string)
| ViewNoQuestions
| ViewQuestion (number : nat) (question : Json) (answered : bool)
| ViewResults (correct total : nat)
| ViewBlank.

(** The body of the component after its hooks. [isLoading] and [error]
    are what the [useAIRequest] hook reports at this render; a string is
    truthy when it is not empty. *)
Definition render (isLoading : bool) (error : option string) (s : QuizState)
  : View :=
  let has_current := truthy_opt (currentQuestion s) in
  if isLoading then ViewLoading
  else match error with
  | Some (String c message) => ViewError (String c message)
  | Some EmptyString | None =>
      if negb has_current && negb (isQuizCompleted s) && negb isLoading
      then ViewNoQuestions
      else
        match currentQuestion s with
        | Some q =>
            if negb (isQuizCompleted s) && has_current
            then ViewQuestion (currentQuestionIndex s + 1) q (isAnswered s)
            else if isQuizCompleted s
                 then ViewResults (score s) (length (quiz s))
                 else ViewBlank
        | None =>
            if isQuizCompleted s
            then ViewResults (score s) (length (quiz s))
            else ViewBlank
        end
  end.

(** *** What the validation asks of an element, in words *)

(** An element passes when it is an object with a truthy [question], an
    [options] array of length 4 and a truthy [correctAnswer]. *)
Definition has_shape (q : Json) : Prop :=
  exists fields question opts answer,
    q = JObj fields
    /\ own "question" fields = Some question /\ truthy question = true
    /\ own "options" fields = Some (JArr opts) /\ length opts = 4%nat
    /\ own "correctAnswer" fields = Some answer /\ truthy answer = true.

(** A payload is malformed when it is not an array, or is an array with an
    element that does not pass. *)
Definition malformed (data : Json) : Prop :=
  forall items, data = JArr items -> Exists (fun q => ~ has_shape q) items.

(** The [QuizQuestion] invariant of the data model: a question string,
    exactly 4 option strings, and a [correctAnswer] string that is one of
    the options. *)
Definition is_string (v : Json) : bool :=
  match v with JStr _ => true | _ => false end.

Definition QuizQuestion_invariant (q : Json) : bool :=
  match q with
  | JObj fields =>
      match own "question" fields, own "options" fields,
            own "correctAnswer" fields with
      | Some (JStr _), Some (JArr opts), Some (JStr answer) =>
          (length opts =? 4)%nat
          && forallb is_string opts
          && existsb (strict_eq (JStr answer)) opts
      | _, _, _ => false
      end
  | _ => false
  end.

Definition isSome {A : Type} (v : option A) : bool :=
  match v with Some _ => true | None => false end.

(** The validation in the words of the specification: a payload is
    rejected when an element lacks a question string, exactly 4 options,
    or a [correctAnswer]. *)
Definition lacks_required_field (q : Json) : bool :=
  match q with
  | JObj fields =>
      negb (match own "question" fields with
            | Some v => is_string v
            | None => false
            end)
      || negb (match own "options" fields with
               | Some (JArr opts) => (length opts =? 4)%nat
               | _ => false
               end)
      || negb (isSome (own "correctAnswer" fields))
  | _ => true
  end.

(** *** Sample payloads and a sample session *)

Definition question_of (text : string) (opts : list string) (answer : string)
  : Json :=
  JObj [("question", JStr text); ("options", JArr (map JStr opts));
        ("correctAnswer", JStr answer)].

(** The answer is not among the four options. *)
Definition answer_off_list : Json :=
  question_of "2 + 2 = ?" ["1"; "2"; "3"; "5"] "4".

(** The question is a number, not a string. *)
Definition numeric_question : Json :=
  JObj [("question", JNum (QArith_base.Qmake 42 1));
        ("options", JArr [JStr "a"; JStr "b"; JStr "c"; JStr "d"]);
        ("correctAnswer", JStr "a")].

(** An element without [options]. *)
Definition missing_options : Json :=
  JObj [("question", JStr "2 + 2 = ?"); ("correctAnswer", JStr "4")].

Definition five_questions : list Json :=
  map (fun text => question_of text ["A"; "B"; "C"; "D"] "B")
      ["q1"; "q2"; "q3"; "q4"; "q5"].

(** Select an option, check it and move on, once per choice. *)
Definition take_quiz (choices : list Json) (s : QuizState) : QuizState :=
  foldl (fun s choice =>
           (nextQuestion (checkAnswer (handleOptionSelect s choice)).1).1)
        s choices.

(** *** The buttons of the screen *)

(** What the user can press: the [i]-th option of the current question,
    "Check Answer", "Next Question" / "See Results", "Restart Quiz", and
    the buttons that call [generateQuiz] ("Generate Quiz", "Try Again",
    "Generate New Quiz"). *)
Inductive Gesture : Type :=
| ClickOption (i : nat)
| ClickCheck
| ClickNext
| ClickRestart
| ClickGenerate.

(** [currentQuestion.options[i]], when [options] is an array. *)
Definition option_at (q : Json) (i : nat) : option Json :=
  match isArray (default None (prop q "options")) with
  | Some opts => opts !! i
  | None => None
  end.

(** Whether the screen rendered from [s] carries the button, enabled.
    The question card shows "Check Answer" (disabled without a selection)
    until the question is answered and the "next" button afterwards; the
    options stay clickable; the results card shows "Restart Quiz". *)
Definition offered (isLoading : bool) (error : option string)
    (s : QuizState) (g : Gesture) : bool :=
  match render isLoading error s, g with
  | ViewQuestion _ q _, ClickOption i => isSome (option_at q i)
  | ViewQuestion _ _ answered, ClickCheck =>
      negb answered && truthy_opt (selectedOption s)
  | ViewQuestion _ _ answered, ClickNext => answered
  | ViewResults _ _, ClickRestart => true
  | ViewResults _ _, ClickGenerate => true
  | ViewNoQuestions, ClickGenerate => true
  | ViewError _, ClickGenerate => true
  | _, _ => false
  end.

(** The [onClick] handler of the button pressed, when it is on screen. *)
Definition press (isLoading : bool) (error : option string)
    (studyText : string) (s : QuizState) (g : Gesture)
  : QuizState * list Effect :=
  if offered isLoading error s g then
    match g with
    | ClickOption i =>
        match currentQuestion s with
        | Some q =>
            match option_at q i with
            | Some o => (handleOptionSelect s o, [])
            | None => (s, [])
            end
        | None => (s, [])
        end
    | ClickCheck => checkAnswer s
    | ClickNext => nextQuestion s
    | ClickRestart => restartQuiz s
    | ClickGenerate => (s, generateQuiz studyText)
    end
  else (s, []).

(** What happens to the component: the user presses a button while the
    request hook reports [isLoading] and [error], or the hook delivers a
    parsed payload to [onSuccess]. *)
Inductive Input : Type :=
| User (isLoading : bool) (error : option string) (g : Gesture)
| Loaded (data : Json).

Definition react (studyText : string) (s : QuizState) (i : Input)
  : QuizState :=
  match i with
  | User isLoading error g => (press isLoading error studyText s g).1
  | Loaded data => (onSuccess s data).1.1
  end.

(** The component after a whole session, from its mount. *)
Definition session (studyText : string) (inputs : list Input) : QuizState :=
  foldl (react studyText) initial inputs.

(** What a session keeps true of the six cells. *)
Definition in_step (s : QuizState) : Prop :=
  (score s <= currentQuestionIndex s + (if isAnswered s then 1 else 0))%nat
  /\ (isAnswered s = true -> (currentQuestionIndex s < length (quiz s))%nat)
  /\ (isQuizCompleted s = true -> isAnswered s = true)
  /\ (currentQuestionIndex s = 0%nat
      \/ (currentQuestionIndex s < length (quiz s))%nat).

(** [selectedOption === currentQuestion.correctAnswer] for a choice [c]
    made on question [q]. *)
Definition is_right (q c : Json) : bool :=
  match default None (prop q "correctAnswer") with
  | Some answer => strict_eq c answer
  | None => false
  end.

(** The number of choices that are the right answer of their question. *)
Fixpoint marks (qs choices : list Json) : nat :=
  match qs, choices with
  | q :: qs', c :: choices' =>
      ((if is_right q c then 1 else 0) + marks qs' choices')%nat
  | _, _ => 0%nat
  end.

(** The state in which [onSuccess] leaves the component with quiz [qs]. *)
Definition fresh (qs : list Json) : QuizState :=
  {| quiz := qs; currentQuestionIndex := 0; selectedOption := None;
     isAnswered := false; score := 0; isQuizCompleted := false |}.

End Quiz.

(* ===================================================================== *)
(** ** The proxy route *)
(* ===================================================================== *)

Module Route.
Import Js.

Definition CACHE_TTL : Z := 1000 * 60 * 10.
Definition maxRetries : Z := 3.

(** The body of a request, [{ prompt, task, content }], as the interface
    of the route types it: [task] is a string, [content] and [prompt] are
    strings or absent ([None]). *)
Record Request : Type := {
  task : string;
  content : option string;
  prompt : option string
}.

(** A value inside a template literal. *)
Definition show (v : option string) : string := default "undefined" v.

(** [v?.slice(0, n)]. *)
Definition slice (n : nat) (v : option string) : option string :=
  substring 0 n <$> v.

Definition cacheKey (rq : Request) : string :=
  task rq +:+ ":" +:+ show (slice 100 (content rq))
          +:+ ":" +:+ show (slice 50 (prompt rq)).

(** *** Choosing model, prompts and sampling parameters *)

Definition default_model : string := "meta-llama/llama-4-scout:free".
Definition reasoning_model : string :=
  "deepseek/deepseek-r1-distill-qwen-32b:free".

Record Call : Type := {
  model : string;
  systemPrompt : string;
  userPrompt : string;
  temperature : QArith_base.Q;
  maxTokens : Z
}.

Definition nl : string := String (ascii_of_nat 10) EmptyString.
Definition dq : string := String (ascii_of_nat 34) EmptyString.

(** Lines 46-101: the model, then the [switch] on [task]. [None] is the
    [default] branch, which rejects with "Invalid task type". *)
Definition select (rq : Request) : option Call :=
  let model :=
    if String.eqb (task rq) "mindmap" || String.eqb (task rq) "quiz"
    then reasoning_model else default_model in
  let tenths (n : Z) := QArith_base.Qmake n 10 in
  if String.eqb (task rq) "summarize" then
    Some {| model := model;
            systemPrompt := "You are an AI study assistant that creates concise, informative summaries of educational content. Focus on key concepts, main ideas, and important details. Format your response with clear headings, bullet points for key facts, and a brief conclusion.";
            userPrompt := "Please summarize the following text in a clear, structured format with headings and bullet points for key concepts:" +:+ nl +:+ nl +:+ show (content rq);
            temperature := tenths 3;
            maxTokens := 1024 |}
  else if String.eqb (task rq) "quiz" then
    Some {| model := model;
            systemPrompt := "You are an AI study assistant that creates educational quiz questions. Generate challenging but fair multiple-choice questions based on the provided content. Each question should have 4 options with exactly one correct answer. IMPORTANT: Return ONLY the raw JSON array without any markdown formatting, code blocks, or explanation. The response should be directly parseable by JSON.parse().";
            userPrompt := "Create 5 multiple-choice quiz questions based on this content. Return ONLY a JSON array with objects containing 'question', 'options' (array of 4 choices), and 'correctAnswer' fields. Do not include any explanation, markdown formatting, or code blocks in your response. The response must be valid JSON that can be directly parsed:" +:+ nl +:+ nl +:+ show (content rq);
            temperature := tenths 7;
            maxTokens := 1500 |}
  else if String.eqb (task rq) "askdoubt" then
    Some {| model := model;
            systemPrompt := "You are an AI tutor that answers student questions clearly and accurately. Provide detailed explanations with examples when helpful.";
            userPrompt := "The student is studying the following content and has this question: " +:+ dq +:+ show (prompt rq) +:+ dq +:+ nl +:+ nl +:+ "Content: " +:+ show (content rq) +:+ nl +:+ nl +:+ "Provide a helpful, educational answer.";
            temperature := tenths 4;
            maxTokens := 1024 |}
  else if String.eqb (task rq) "mindmap" then
    Some {| model := model;
            systemPrompt := "You are an AI study assistant that creates mind maps. Extract key concepts and their relationships from educational content. IMPORTANT: Return ONLY the raw JSON object without any markdown formatting, code blocks, or explanation. The response should be directly parseable by JSON.parse().";
            userPrompt := "Create a mind map based on this content. Return ONLY a JSON object with a 'center' field (main topic) and a 'nodes' array. Each node should have 'id', 'text', 'position' (as an array [x,y,z] with 3 numeric values), and optionally 'children' (an array with the same structure). Do not include any explanation, markdown formatting, or code blocks in your response. The response must be valid JSON that can be directly parsed:" +:+ nl +:+ nl +:+ show (content rq);
            temperature := tenths 7;
            maxTokens := 2000 |}
  else if String.eqb (task rq) "flashcards" then
    Some {| model := model;
            systemPrompt := "You are an AI study assistant that creates effective flashcards for learning. Extract key concepts and definitions from educational content. IMPORTANT: Return ONLY the raw JSON array without any markdown formatting, code blocks, or explanation. The response should be directly parseable by JSON.parse().";
            userPrompt := "Create 5-10 flashcards based on this content. Return ONLY a JSON array with objects containing 'id', 'question', and 'answer' fields. Do not include any explanation, markdown formatting, or code blocks in your response. The response must be valid JSON that can be directly parsed:" +:+ nl +:+ nl +:+ show (content rq);
            temperature := tenths 5;
            maxTokens := 1500 |}
  else None.

(** *** The provider's answers *)

(** What [response.json()] gives: the parsed body, or an exception with
    its message when the body is not JSON. *)
Inductive Body : Type :=
| Parsed (data : Json)
| Unparseable (message : string).

Record Response : Type := {
  status : Z;
  body : Body
}.

(** [response.ok]. *)
Definition ok (r : Response) : bool :=
  (200 <=? status r) && (status r <=? 299).

(** How one [await fetch(...)] ends: it throws (connection error, or the
    15-second [AbortSignal.timeout]) or it gives a response. *)
Inductive FetchOutcome : Type :=
| FetchThrows (message : string)
| FetchResponds (r : Response).

(** [{ result: data.choices[0].message.content }]. *)
Record Result : Type := { result : option Json }.

(** The five objects the executor passes to [reject]. *)
Inductive Rejection : Type :=
| InvalidTask
| UpstreamError (details : Json) (status : Z)
| NetworkError (details : string)
| AttemptsExhausted
| InternalError (details : string).

Definition error (e : Rejection) : string :=
  match e with
  | InvalidTask => "Invalid task type"
  | UpstreamError _ _ => "Failed to get response from AI"
  | NetworkError _ => "Network error after multiple retries"
  | AttemptsExhausted =>
      "Failed to get response from AI after multiple attempts"
  | InternalError _ => "Internal server error"
  end.

(** The message of the [TypeError] of a failed property read; its text is
    the engine's. *)
Definition type_error : string := "TypeError".

(** [data.choices[0].message.content]; the outer [None] is a [TypeError]. *)
Definition first_content (data : Json) : option (option Json) :=
  choices ← prop data "choices";
  first ← at0 choices;
  message ← prop_opt first "message";
  prop_opt message "content".

(** *** The executor of the request promise *)

(** The [await] at which the executor is suspended: the [fetch] of the
    loop, the back-off timer of the 429 branch, or the back-off timer of
    the [catch] clause. *)
Inductive Stage : Type :=
| AwaitFetch
| Backoff429
| BackoffCatch.

(** The executor's closure: the key and the selected call, and the two
    variables of the loop. *)
Record Executor : Type := {
  x_key : string;
  x_call : Call;
  retryCount : Z;
  response : option Response;
  x_stage : Stage
}.

Definition at_stage (g : Stage) (x : Executor) : Executor :=
  {| x_key := x_key x; x_call := x_call x; retryCount := retryCount x;
     response := response x; x_stage := g |}.

Definition with_retryCount (n : Z) (x : Executor) : Executor :=
  {| x_key := x_key x; x_call := x_call x; retryCount := n;
     response := response x; x_stage := x_stage x |}.

Definition with_response (r : Response) (x : Executor) : Executor :=
  {| x_key := x_key x; x_call := x_call x; retryCount := retryCount x;
     response := Some r; x_stage := x_stage x |}.

(** What the executor does to the outside world. *)
Inductive Action : Type :=
| Fetch (call : Call)
| Sleep (ms : Z).

(** Where a run of the executor stops: at its next [await], or with the
    promise settled. *)
Inductive Outcome : Type :=
| Suspend (x : Executor)
| Resolve (r : Result)
| Reject (e : Rejection).

(** Lines 186-195, reached with the response that left the loop: read the
    body and take the first completion. An exception here goes to the
    outer [catch]. *)
Definition complete (r : Response) : Outcome :=
  match body r with
  | Unparseable message => Reject (InternalError message)
  | Parsed data =>
      match first_content data with
      | None => Reject (InternalError type_error)
      | Some c => Resolve {| result := c |}
      end
  end.

(** Lines 181-184 and on: the check after the loop. *)
Definition after_loop (x : Executor) : list Action * Outcome :=
  match response x with
  | Some r => if ok r then ([], complete r)
              else ([], Reject AttemptsExhausted)
  | None => ([], Reject AttemptsExhausted)
  end.

(** The head of [while (retryCount < maxRetries)]: one more [fetch], or
    the loop is left. *)
Definition loop (x : Executor) : list Action * Outcome :=
  if retryCount x <? maxRetries
  then ([Fetch (x_call x)], Suspend (at_stage AwaitFetch x))
  else after_loop x.

(** Lines 163-178, the [catch] clause of the loop body. *)
Definition catch (message : string) (x : Executor) : list Action * Outcome :=
  let x := with_retryCount (retryCount x + 1) x in
  if retryCount x >=? maxRetries
  then ([], Reject (NetworkError message))
  else ([Sleep (2 ^ retryCount x * 1000)], Suspend (at_stage BackoffCatch x)).

(** What wakes a suspended executor. *)
Inductive Wake : Type :=
| Fetched (o : FetchOutcome)
| TimerFired.

(** The executor from one [await] to the next. A wake-up that does not
    match the stage is not for this executor and changes nothing. *)
Definition resume (x : Executor) (w : Wake) : list Action * Outcome :=
  match x_stage x, w with
  | AwaitFetch, Fetched (FetchThrows message) => catch message x
  | AwaitFetch, Fetched (FetchResponds r) =>
      let x := with_response r x in
      if ok r then after_loop x
      else
        match body r with
        | Unparseable message => catch message x
        | Parsed errorData =>
            if status r =? 429
            then ([Sleep (2 ^ retryCount x * 1000)],
                  Suspend (at_stage Backoff429 x))
            else ([], Reject (UpstreamError errorData (status r)))
        end
  | Backoff429, TimerFired => loop (with_retryCount (retryCount x + 1) x)
  | BackoffCatch, TimerFired => loop x
  | _, _ => ([], Suspend x)
  end.

(** The executor as it stands at its first [await]: the first [fetch] has
    been issued. *)
Definition first_attempt (key : string) (call : Call) : Executor :=
  {| x_key := key; x_call := call; retryCount := 0; response := None;
     x_stage := AwaitFetch |}.

(** The executor alone, fed the wake-ups of [ws] until it settles. *)
Fixpoint play (ws : list Wake) (x : Executor) : list Action * Outcome :=
  match ws with
  | [] => ([], Suspend x)
  | w :: rest =>
      match resume x w with
      | (acts, Suspend x') =>
          let '(acts', out) := play rest x' in (acts ++ acts', out)
      | settled => settled
      end
  end.

(** One invocation of the upstream caller, from its first [fetch]. *)
Definition upstream (key : string) (call : Call) (ws : list Wake)
  : list Action * Outcome :=
  let '(acts, out) := play ws (first_attempt key call) in
  (Fetch call :: acts, out).

Definition is_fetch (a : Action) : bool :=
  match a with Fetch _ => true | Sleep _ => false end.

Definition attempts (acts : list Action) : nat :=
  length (filter (fun a => is_fetch a = true) acts).

(** *** The server: cache, ongoing requests, promises, suspended handlers *)

Record CacheEntry : Type := {
  data : Result;
  timestamp : Z
}.

(** A request promise: pending with its suspended executor, or settled. *)
Inductive Promise : Type :=
| Pending (x : Executor)
| Fulfilled (r : Result)
| Rejected (e : Rejection).

(** The two [await]s of a handler: on another request's promise (line 34)
    or on its own (line 212). *)
Inductive Await : Type :=
| Shared
| Own.

Record Handler : Type := {
  h_id : nat;
  h_request : Request;
  h_promise : nat;
  h_await : Await
}.

(** [NextResponse.json(result)], or the 500 of the outer [catch], whose
    [details] is [String(error)] of the rejection object. *)
Inductive Reply : Type :=
| Json200 (r : Result)
| Error500 (details : string).

Definition object_Object : string := "[object Object]".

(** One line of the journal: which promise's executor, for which key,
    did what. *)
Record Entry : Type := {
  e_promise : nat;
  e_key : string;
  e_action : Action
}.

(** The two module-level maps, the promises by creation order, the
    handlers suspended at an [await] in the order they began to wait, the
    replies sent so far by request number, the journal, and the number of
    requests that have arrived. *)
Record Server : Type := {
  responseCache : gmap string CacheEntry;
  ongoingRequests : gmap string nat;
  promises : list Promise;
  handlers : list Handler;
  replies : gmap nat Reply;
  log : list Entry;
  arrivals : nat
}.

Definition init : Server :=
  {| responseCache := ∅; ongoingRequests := ∅; promises := [];
     handlers := []; replies := ∅; log := []; arrivals := 0 |}.

Definition set_responseCache (c : gmap string CacheEntry) (st : Server) :=
  {| responseCache := c; ongoingRequests := ongoingRequests st;
     promises := promises st; handlers := handlers st;
     replies := replies st; log := log st; arrivals := arrivals st |}.

Definition set_ongoingRequests (o : gmap string nat) (st : Server) :=
  {| responseCache := responseCache st; ongoingRequests := o;
     promises := promises st; handlers := handlers st;
     replies := replies st; log := log st; arrivals := arrivals st |}.

Definition set_promises (ps : list Promise) (st : Server) :=
  {| responseCache := responseCache st;
     ongoingRequests := ongoingRequests st;
     promises := ps; handlers := handlers st;
     replies := replies st; log := log st; arrivals := arrivals st |}.

Definition set_handlers (hs : list Handler) (st : Server) :=
  {| responseCache := responseCache st;
     ongoingRequests := ongoingRequests st;
     promises := promises st; handlers := hs;
     replies := replies st; log := log st; arrivals := arrivals st |}.

Definition set_replies (rs : gmap nat Reply) (st : Server) :=
  {| responseCache := responseCache st;
     ongoingRequests := ongoingRequests st;
     promises := promises st; handlers := handlers st;
     replies := rs; log := log st; arrivals := arrivals st |}.

Definition set_log (l : list Entry) (st : Server) :=
  {| responseCache := responseCache st;
     ongoingRequests := ongoingRequests st;
     promises := promises st; handlers := handlers st;
     replies := replies st; log := l; arrivals := arrivals st |}.

Definition set_arrivals (n : nat) (st : Server) :=
  {| responseCache := responseCache st;
     ongoingRequests := ongoingRequests st;
     promises := promises st; handlers := handlers st;
     replies := replies st; log := log st; arrivals := n |}.

Definition reply (id : nat) (r : Reply) (st : Server) : Server :=
  set_replies (<[id := r]> (replies st)) st.

Definition journal (p : nat) (key : string) (acts : list Action)
    (st : Server) : Server :=
  set_log (log st ++ map (Build_Entry p key) acts) st.

(** Lines 42-213, for request number [id]: create the promise, run its
    executor up to its first [await], store the promise under the key,
    await it.

    For an unrecognized task the executor never awaits: it rejects and
    its [finally] deletes the key, all inside [new Promise]; only then is
    the promise stored, and the handler's [await] of it throws at once. *)
Definition start (id : nat) (rq : Request) (st : Server) : Server :=
  let key := cacheKey rq in
  let p := length (promises st) in
  match select rq with
  | None =>
      let st := set_promises (promises st ++ [Rejected InvalidTask]) st in
      let st := set_ongoingRequests (delete key (ongoingRequests st)) st in
      let st := set_ongoingRequests (<[key := p]> (ongoingRequests st)) st in
      reply id (Error500 object_Object) st
  | Some call =>
      let st := journal p key [Fetch call] st in
      let st :=
        set_promises (promises st ++ [Pending (first_attempt key call)]) st in
      let st := set_ongoingRequests (<[key := p]> (ongoingRequests st)) st in
      set_handlers
        (handlers st ++ [{| h_id := id; h_request := rq; h_promise := p;
                            h_await := Own |}]) st
  end.

(** A handler after its [await], once the promise is settled with [v]: a
    result is sent back; a failure of the handler's own promise goes to
    the outer [catch]; a failure of a shared promise is caught at line 36
    and the handler goes on to line 42. *)
Definition continue (v : Promise) (h : Handler) (st : Server) : Server :=
  match v with
  | Pending _ => st
  | Fulfilled r => reply (h_id h) (Json200 r) st
  | Rejected e =>
      match h_await h with
      | Own => reply (h_id h) (Error500 object_Object) st
      | Shared => start (h_id h) (h_request h) st
      end
  end.

Definition awaits (p : nat) (h : Handler) : bool := (h_promise h =? p)%nat.

(** Promise [p] settles with [v]: the executor's [finally] deletes the
    key, then the handlers awaiting [p] continue, in the order in which
    they began to wait. *)
Definition settle (p : nat) (key : string) (v : Promise) (st : Server)
  : Server :=
  let st := set_promises (<[p := v]> (promises st)) st in
  let st := set_ongoingRequests (delete key (ongoingRequests st)) st in
  let woken := filter (fun h => awaits p h = true) (handlers st) in
  let st :=
    set_handlers (filter (fun h => awaits p h = false) (handlers st)) st in
  foldl (fun st h => continue v h st) st woken.

(** The state in which the woken handlers start to run. *)
Definition settled_base (p : nat) (key : string) (v : Promise) (st : Server)
  : Server :=
  set_handlers (filter (fun h => awaits p h = false) (handlers st))
    (set_ongoingRequests (delete key (ongoingRequests st))
       (set_promises (<[p := v]> (promises st)) st)).

(** The executor of promise [p] is woken at time [now] and runs to its
    next [await] or to the end; a result is cached before [resolve]. *)
Definition advance (now : Z) (p : nat) (x : Executor) (w : Wake)
    (st : Server) : Server :=
  let '(acts, out) := resume x w in
  let st := journal p (x_key x) acts st in
  match out with
  | Suspend x' => set_promises (<[p := Pending x']> (promises st)) st
  | Resolve r =>
      let st :=
        set_responseCache
          (<[x_key x := {| data := r; timestamp := now |}]>
             (responseCache st)) st in
      settle p (x_key x) (Fulfilled r) st
  | Reject e => settle p (x_key x) (Rejected e) st
  end.

(** [cachedResponse && Date.now() - cachedResponse.timestamp < CACHE_TTL]. *)
Definition cached (now : Z) (c : option CacheEntry) : option Result :=
  match c with
  | Some entry =>
      if now - timestamp entry <? CACHE_TTL then Some (data entry) else None
  | None => None
  end.

(** [POST], from the arrival of a request at time [now] to its first
    [await] (or to its reply, when it does not have to wait). A promise
    found under the key that is already settled makes the [await] of line
    34 continue within the same task. *)
Definition POST (now : Z) (rq : Request) (st : Server) : Server :=
  let id := arrivals st in
  let st := set_arrivals (S id) st in
  let key := cacheKey rq in
  match cached now (responseCache st !! key) with
  | Some r => reply id (Json200 r) st
  | None =>
      match ongoingRequests st !! key with
      | Some p =>
          let h := {| h_id := id; h_request := rq; h_promise := p;
                      h_await := Shared |} in
          match promises st !! p with
          | Some (Pending _) | None => set_handlers (handlers st ++ [h]) st
          | Some v => continue v h st
          end
      | None => start id rq st
      end
  end.

(** What the event loop delivers to the route: a request whose body has
    been read (line 17), the end of a [fetch] together with the reading of
    the response body, or the end of a back-off timer. Between a [fetch]
    and the reading of its body the executor touches neither map, so the
    two are one event. *)
Inductive Event : Type :=
| Arrives (rq : Request)
| FetchSettles (p : nat) (o : FetchOutcome)
| TimerFires (p : nat).

Definition wake (now : Z) (p : nat) (w : Wake) (st : Server) : Server :=
  match promises st !! p with
  | Some (Pending x) => advance now p x w st
  | _ => st
  end.

(** One task of the event loop, with the value of [Date.now()] in it. *)
Definition step (now : Z) (ev : Event) (st : Server) : Server :=
  match ev with
  | Arrives rq => POST now rq st
  | FetchSettles p o => wake now p (Fetched o) st
  | TimerFires p => wake now p TimerFired st
  end.

Definition run (evs : list (Z * Event)) (st : Server) : Server :=
  foldl (fun st e => step (fst e) (snd e) st) st evs.

(** The [fetch] calls journalled for key [k]. *)
Definition fetches_for (k : string) (l : list Entry) : nat :=
  length (filter (fun e => e_key e = k /\ is_fetch (e_action e) = true) l).

(** *** Measures and invariants used in the proofs *)

(** The [fetch] calls a suspended executor can still make. *)
Definition remaining (x : Executor) : nat :=
  match x_stage x with
  | AwaitFetch => Z.to_nat (maxRetries - retryCount x - 1)
  | Backoff429 => Z.to_nat (maxRetries - (retryCount x + 1))
  | BackoffCatch => Z.to_nat (maxRetries - retryCount x)
  end.

(** Nothing is under way for key [k]: no executor is pending for it and
    no handler stands ready to retry it. *)
Definition quiet (k : string) (st : Server) : Prop :=
  (forall p x, promises st !! p = Some (Pending x) -> x_key x <> k)
  /\ (forall h, h ∈ handlers st -> h_await h = Shared ->
                cacheKey (h_request h) <> k).

(** The part of the state the proofs about a key [k] follow: nothing
    under way for [k], its cache entry, its [fetch] calls so far. *)
Definition kept (k : string) (st s : Server) : Prop :=
  quiet k s
  /\ responseCache s = responseCache st
  /\ fetches_for k (log s) = fetches_for k (log st).

(** The same, as an invariant of a run: nothing under way for [k], the
    cache entry of [k] is [c], and [n] [fetch] calls were made for [k]. *)
Definition calm (k : string) (c : CacheEntry) (n : nat) (s : Server) : Prop :=
  quiet k s
  /\ responseCache s !! k = Some c
  /\ fetches_for k (log s) = n.

(** Request numbers are handed out in order: every suspended handler and
    every reply belongs to a request that has arrived. *)
Definition numbered (st : Server) : Prop :=
  (forall h, h ∈ handlers st -> (h_id h < arrivals st)%nat)
  /\ (forall id, (arrivals st <= id)%nat -> replies st !! id = None).

(** *** Sample requests and answers *)

Definition summarize_cells : Request :=
  {| task := "summarize"; content := Some "cells"; prompt := None |}.

(** Two requests whose contents share their first 100 characters. *)
Definition hundred : string :=
  "0123456789012345678901234567890123456789012345678901234567890123456789012345678901234567890123456789".

Definition long_content_a : Request :=
  {| task := "summarize"; content := Some (hundred +:+ " mitosis");
     prompt := None |}.

Definition long_content_b : Request :=
  {| task := "summarize"; content := Some (hundred +:+ " meiosis");
     prompt := None |}.

Definition translate_hello : Request :=
  {| task := "translate"; content := Some "hello"; prompt := None |}.

Definition server_error : Response :=
  {| status := 500; body := Parsed (JObj [("message", JStr "boom")]) |}.

Definition rate_limited : Response :=
  {| status := 429; body := Parsed (JObj [("message", JStr "slow down")]) |}.

Definition completion (text : string) : Response :=
  {| status := 200;
     body := Parsed
       (JObj [("choices",
               JArr [JObj [("message", JObj [("content", JStr text)])]])]) |}.

Definition sample_call : Call :=
  {| model := default_model; systemPrompt := "system"; userPrompt := "user";
     temperature := QArith_base.Qmake 3 10; maxTokens := 1024 |}.

(** The policy table of the specification: model, temperature and
    token budget per task. *)
Definition policy_table : list (string * (string * QArith_base.Q * Z)) :=
  [("summarize", (default_model, QArith_base.Qmake 3 10, 1024));
   ("quiz", (reasoning_model, QArith_base.Qmake 7 10, 1500));
   ("askdoubt", (default_model, QArith_base.Qmake 4 10, 1024));
   ("mindmap", (reasoning_model, QArith_base.Qmake 7 10, 2000));
   ("flashcards", (default_model, QArith_base.Qmake 5 10, 1500))].

Definition policy (t : string) : option (string * QArith_base.Q * Z) :=
  snd <$> find (fun row => String.eqb (fst row) t) policy_table.

(** *** Invariants of a run *)

(** Whether the executor has come to an end. *)
Definition settled (out : Outcome) : bool :=
  match out with
  | Suspend _ => false
  | Resolve _ | Reject _ => true
  end.

(** The [fetch] calls journalled for the executor of promise [p]. *)
Definition fetches_by (p : nat) (l : list Entry) : nat :=
  length (filter (fun e => e_promise e = p /\ is_fetch (e_action e) = true) l).

(** Every executor has spent on [fetch] calls no more than its budget of
    three allows, counting what it may still spend. *)
Definition budgeted (st : Server) : Prop :=
  forall p,
    match promises st !! p with
    | Some (Pending x) => (fetches_by p (log st) + remaining x <= 3)%nat
    | Some _ => (fetches_by p (log st) <= 3)%nat
    | None => fetches_by p (log st) = 0%nat
    end.

(** No handler awaits a promise that has settled, and a key among the
    ongoing requests points either at a pending promise created for that
    key or at the rejected promise of an unrecognized task. *)
Definition sound (st : Server) : Prop :=
  (forall h, h ∈ handlers st ->
             exists x, promises st !! h_promise h = Some (Pending x))
  /\ (forall k p, ongoingRequests st !! k = Some p ->
        (exists x, promises st !! p = Some (Pending x) /\ x_key x = k)
        \/ promises st !! p = Some (Rejected InvalidTask)).

(** Every request number below [n] either is in [ids], once, and has
    no reply, or has a reply; no other number has one. *)
Definition tallied (ids : list nat) (rs : gmap nat Reply) (n : nat) : Prop :=
  NoDup ids
  /\ (forall id, id ∈ ids -> (id < n)%nat /\ rs !! id = None)
  /\ (forall id, (id < n)%nat -> id ∉ ids -> is_Some (rs !! id))
  /\ (forall id, (n <= id)%nat -> rs !! id = None).

(** Every request that has arrived is either suspended at one [await] or
    answered, never both; [waiting] lists handlers that have been woken
    and have not run yet. *)
Definition accounted_with (waiting : list Handler) (st : Server) : Prop :=
  tallied (map h_id (handlers st ++ waiting)) (replies st) (arrivals st).

Definition accounted (st : Server) : Prop := accounted_with [] st.

(** A woken handler that will issue a [fetch] of its own if the promise
    it awaited was rejected: it awaited another request's promise and its
    task is recognized. *)
Definition retries (h : Handler) : bool :=
  match h_await h, select (h_request h) with
  | Shared, Some _ => true
  | _, _ => false
  end.

(** All the [fetch] calls of a journal. *)
Definition fetches (l : list Entry) : nat := attempts (map e_action l).

(** *** Events seen from one promise *)

(** The executor an event is for, and what wakes it. *)
Definition wakes (ev : Event) : option (nat * Wake) :=
  match ev with
  | Arrives _ => None
  | FetchSettles p o => Some (p, Fetched o)
  | TimerFires p => Some (p, TimerFired)
  end.

(** How far event [ev] takes the executor of promise [p] in state [st]:
    [None] when the event is not for [p] or [p] is not pending. *)
Definition outcome_for (p : nat) (ev : Event) (st : Server)
  : option Outcome :=
  match wakes ev with
  | Some (q, w) =>
      if (q =? p)%nat then
        match promises st !! p with
        | Some (Pending x) => Some (resume x w).2
        | _ => None
        end
      else None
  | None => None
  end.

(** Two optional strings that are equal, or that differ only after their
    first [n] characters. *)
Definition same_prefix (n : nat) (a b : option string) : Prop :=
  a = b
  \/ exists c ta tb,
       (n <= String.length c)%nat
       /\ a = Some (c +:+ ta) /\ b = Some (c +:+ tb).

(** *** More sample requests and answers *)

(** A gateway's answer with an HTML body. *)
Definition bad_gateway : Response :=
  {| status := 502; body := Unparseable "Unexpected token <" |}.

(** Two requests with one key: the colon of the key is in the content of
    the first and in the task of the second. *)
Definition colon_content : Request :=
  {| task := "summarize"; content := Some "a:b"; prompt := None |}.

Definition colon_task : Request :=
  {| task := "summarize:a"; content := Some "b"; prompt := None |}.

(** *** What becomes of a handler that awaits another request's promise *)

(** Handler [h] has gone on to lines 42-213 with the call [call]: it has
    no reply; a new promise, pending at the first [fetch] of that call,
    was created for its key after those of [st]; the key among the ongoing
    requests points at that promise or at a later one; the [fetch] is in
    the journal; and the handler now awaits its own promise. *)
Definition restarted (h : Handler) (call : Call) (st s : Server) : Prop :=
  replies s !! h_id h = None
  /\ exists p' q,
       (length (promises st) <= p')%nat
       /\ promises s !! p'
          = Some (Pending (first_attempt (cacheKey (h_request h)) call))
       /\ ongoingRequests s !! cacheKey (h_request h) = Some q
       /\ (p' <= q)%nat
       /\ {| e_promise := p'; e_key := cacheKey (h_request h);
             e_action := Fetch call |} ∈ log s
       /\ {| h_id := h_id h; h_request := h_request h; h_promise := p';
             h_await := Own |} ∈ handlers s.

(** Handler [h], suspended in [st] at the [await] of line 34, after event
    [ev] has led to [s]. If the event resolves the promise it awaits, it
    is answered with the result. If the event rejects that promise, the
    failure is caught at line 36: a handler with a recognized task starts
    over, one with an unrecognized task is answered with the 500 of its
    own rejection. After any other event it is still suspended, with no
    reply. *)
Definition waiter_after (h : Handler) (ev : Event) (st s : Server) : Prop :=
  match outcome_for (h_promise h) ev st with
  | Some (Resolve r) => replies s !! h_id h = Some (Json200 r)
  | Some (Reject _) =>
      match select (h_request h) with
      | Some call => restarted h call st s
      | None => replies s !! h_id h = Some (Error500 object_Object)
      end
  | Some (Suspend _) | None =>
      h ∈ handlers s /\ replies s !! h_id h = None
  end.

End Route.

(* ===================================================================== *)
(** ** Facts about the quiz component *)
(* ===================================================================== *)

Section QuizFacts.
Import Js Quiz.

Lemma every_true (f : Json -> option bool) (items : list Json) :
  every f items = Some true <-> Forall (fun q => f q = Some true) items.
Proof.
  induction items as [|q items IH]; simpl.
  - split; [constructor | reflexivity].
  - destruct (f q) as [[|]|] eqn:Hq.
    + rewrite IH. split.
      * intros H. constructor; assumption.
      * intros H. inversion H; assumption.
    + split; [discriminate | intros H; inversion H; congruence].
    + split; [discriminate | intros H; inversion H; congruence].
Qed.

Lemma question_ok_shape (q : Json) :
  question_ok q = Some true <-> has_shape q.
Proof.
  unfold question_ok, has_shape. split.
  - destruct q as [| | | | |fields]; simpl; try discriminate;
      try (intros [=H]; discriminate H).
    intros [=H].
    apply andb_prop in H as [H Hanswer]. apply andb_prop in H as [Hq Hopts].
    destruct (own "question" fields) as [question|] eqn:E1; [|discriminate].
    destruct (own "options" fields) as [[| | | |opts|]|] eqn:E2;
      simpl in Hopts; try discriminate.
    destruct (own "correctAnswer" fields) as [answer|] eqn:E3; [|discriminate].
    exists fields, question, opts, answer.
    repeat split; try assumption; try reflexivity.
    apply Z.eqb_eq in Hopts. lia.
  - intros (fields & question & opts & answer & -> & E1 & Hq & E2 & Hlen & E3 & Ha).
    simpl. rewrite E1, E2, E3. simpl. rewrite Hq, Ha, Hlen. reflexivity.
Qed.

Lemma valid_quiz_shape (data : Json) :
  valid_quiz data = Some true
  <-> exists items, data = JArr items /\ Forall has_shape items.
Proof.
  unfold valid_quiz. split.
  - destruct data as [| | | |items|]; simpl; try discriminate.
    intros H. exists items. split; [reflexivity|].
    apply every_true in H. eapply Forall_impl; [exact H|].
    intros q Hq. apply question_ok_shape, Hq.
  - intros (items & -> & H). simpl. apply every_true.
    eapply Forall_impl; [exact H|]. intros q Hq. apply question_ok_shape, Hq.
Qed.

(** A payload that is not accepted leaves the six cells as they were,
    whether the guard answered false or threw. *)
Lemma onSuccess_keeps (s : QuizState) (data : Json) :
  valid_quiz data <> Some true ->
  (onSuccess s data).1.1 = s
  /\ ((onSuccess s data).1.2 = [] \/ (onSuccess s data).1.2 = [ConsoleError data]).
Proof.
  unfold onSuccess. destruct (valid_quiz data) as [[|]|]; simpl.
  - congruence.
  - intros _. split; [reflexivity | right; reflexivity].
  - intros _. split; [reflexivity | left; reflexivity].
Qed.

Lemma malformed_not_valid (data : Json) :
  malformed data -> valid_quiz data <> Some true.
Proof.
  intros Hbad Hvalid. apply valid_quiz_shape in Hvalid as (items & -> & Hall).
  specialize (Hbad items eq_refl).
  apply Exists_exists in Hbad as (q & Hin & Hq).
  rewrite Forall_forall in Hall. apply Hq, Hall, Hin.
Qed.

(** C7, as the claim reads, fails: an element whose [correctAnswer] is
    none of its four options violates the [QuizQuestion] invariant, yet the
    payload holding it is accepted and the element is put on screen. *)
Lemma answer_off_list_rendered :
  QuizQuestion_invariant answer_off_list = false
  /\ (onSuccess initial (JArr [answer_off_list])).1.1
     = {| quiz := [answer_off_list]; currentQuestionIndex := 0;
          selectedOption := None; isAnswered := false; score := 0;
          isQuizCompleted := false |}
  /\ render false None (onSuccess initial (JArr [answer_off_list])).1.1
     = ViewQuestion 1 answer_off_list false.
Proof. repeat split. Qed.

(** C7, amended: the component accepts a payload exactly when it is an
    array whose every element is an object with a truthy [question], an
    [options] array of length 4 and a truthy [correctAnswer]; then the
    whole array becomes the quiz. Otherwise the payload as a whole is
    dropped and the state is kept. Whether [correctAnswer] is one of the
    options plays no part. *)
Theorem onSuccess_checks_shape_only (s : QuizState) (data : Json) :
  (exists items,
      data = JArr items /\ Forall has_shape items
      /\ onSuccess s data
         = ({| quiz := items; currentQuestionIndex := 0;
               selectedOption := None; isAnswered := false; score := 0;
               isQuizCompleted := false |},
            [AddPoints 20 "Generated a quiz"], Returns))
  \/ (~ (exists items, data = JArr items /\ Forall has_shape items)
      /\ (onSuccess s data).1.1 = s).
Proof.
  destruct (valid_quiz data) as [[|]|] eqn:Hv.
  - left. pose proof Hv as Hv'.
    apply valid_quiz_shape in Hv' as (items & -> & Hall).
    exists items. repeat split; [assumption|].
    unfold onSuccess. rewrite Hv. reflexivity.
  - right. split.
    + intros H. apply valid_quiz_shape in H. congruence.
    + apply onSuccess_keeps. congruence.
  - right. split.
    + intros H. apply valid_quiz_shape in H. congruence.
    + apply onSuccess_keeps. congruence.
Qed.

(** C8, as the claim reads, fails: an element whose [question] is the
    number 42 lacks a question string, yet the payload is accepted and the
    component shows its first question. And where a payload is dropped
    (here an element without [options]), the component records neither a
    loading nor an error state of its own: with both flags of the request
    hook off, the screen from the initial state is the "no questions"
    one. *)
Lemma numeric_question_rendered :
  lacks_required_field numeric_question = true
  /\ valid_quiz (JArr [numeric_question]) = Some true
  /\ render false None (onSuccess initial (JArr [numeric_question])).1.1
     = ViewQuestion 1 numeric_question false
  /\ lacks_required_field missing_options = true
  /\ render false None (onSuccess initial (JArr [missing_options])).1.1
     = ViewNoQuestions.
Proof. repeat split. Qed.

(** C8, amended: a payload that is not an array, or that has an element
    which is not an object with a truthy [question], an [options] array of
    length 4 and a truthy [correctAnswer], is dropped before anything is
    rendered from it: the six cells keep their values, no points are
    awarded, and under whatever [isLoading] and [error] the request hook
    reports the screen is the one the previous state gives; from the
    initial state with both flags off that is the "no questions" screen. *)
Theorem malformed_payload_changes_nothing
    (s : QuizState) (data : Json) (isLoading : bool) (error : option string) :
  malformed data ->
  (onSuccess s data).1.1 = s
  /\ (forall n reason, AddPoints n reason ∉ (onSuccess s data).1.2)
  /\ render isLoading error (onSuccess s data).1.1 = render isLoading error s
  /\ render false None (onSuccess initial data).1.1 = ViewNoQuestions.
Proof.
  intros Hbad. apply malformed_not_valid in Hbad.
  destruct (onSuccess_keeps s data Hbad) as [Hs Heffs].
  destruct (onSuccess_keeps initial data Hbad) as [Hi _].
  rewrite Hs, Hi. repeat split.
  intros n reason Hin.
  destruct Heffs as [E|E]; rewrite E in Hin.
  - inversion Hin.
  - apply list_elem_of_singleton in Hin. discriminate.
Qed.

Lemma malformed_payload_changes_nothing_witness :
  malformed (JArr [missing_options])
  /\ (onSuccess initial (JArr [missing_options])).1.1 = initial.
Proof.
  assert (Hbad : malformed (JArr [missing_options])).
  { intros items [= <-]. constructor.
    intros (fields & question & opts & answer & [= <-] & _ & _ & E & _).
    vm_compute in E. discriminate E. }
  split; [exact Hbad|].
  apply (malformed_payload_changes_nothing
           initial (JArr [missing_options]) false None Hbad).
Defined.

(** C9: from every state, [restartQuiz] keeps the questions in their
    order, sets the index and the score to 0, clears the selection and the
    two flags, and asks for nothing (no new request, no points); the
    screen is again the first question, unanswered. *)
Theorem restartQuiz_resets (s : QuizState) :
  quiz (restartQuiz s).1 = quiz s
  /\ currentQuestionIndex (restartQuiz s).1 = 0%nat
  /\ score (restartQuiz s).1 = 0%nat
  /\ selectedOption (restartQuiz s).1 = None
  /\ isAnswered (restartQuiz s).1 = false
  /\ isQuizCompleted (restartQuiz s).1 = false
  /\ (restartQuiz s).2 = []
  /\ render false None (restartQuiz s).1
     = match quiz s with
       | q :: _ => if truthy q then ViewQuestion 1 q false
                   else ViewNoQuestions
       | [] => ViewNoQuestions
       end.
Proof.
  repeat split.
  unfold render, currentQuestion. simpl.
  destruct (quiz s) as [|q rest]; simpl; [reflexivity|].
  destruct (truthy q); reflexivity.
Qed.

(** The case of the specification: five questions, three right answers,
    the quiz completed, then a restart. *)
Example restart_after_three_of_five :
  let done :=
    take_quiz [JStr "B"; JStr "C"; JStr "B"; JStr "B"; JStr "A"]
              (onSuccess initial (JArr five_questions)).1.1 in
  score done = 3%nat /\ isQuizCompleted done = true
  /\ render false None done = ViewResults 3 5
  /\ (restartQuiz done).1
     = {| quiz := five_questions; currentQuestionIndex := 0;
          selectedOption := None; isAnswered := false; score := 0;
          isQuizCompleted := false |}.
Proof. repeat split. Qed.

(** C10: the empty array passes the guard, since [every] holds of no
    element at all; the quiz becomes the empty list and twenty points are
    awarded. The state has no current question and is not completed, and
    the screen is the "no questions" one. *)
Theorem empty_array_accepted (s : QuizState) :
  valid_quiz (JArr []) = Some true
  /\ onSuccess s (JArr [])
     = ({| quiz := []; currentQuestionIndex := 0; selectedOption := None;
           isAnswered := false; score := 0; isQuizCompleted := false |},
        [AddPoints 20 "Generated a quiz"], Returns)
  /\ currentQuestion (onSuccess s (JArr [])).1.1 = None
  /\ isQuizCompleted (onSuccess s (JArr [])).1.1 = false
  /\ render false None (onSuccess s (JArr [])).1.1 = ViewNoQuestions.
Proof. repeat split. Qed.

End QuizFacts.

(* ===================================================================== *)
(** ** Facts about the upstream caller *)
(* ===================================================================== *)

Section UpstreamFacts.
Import Js Route.

Lemma attempts_app (a b : list Action) :
  attempts (a ++ b) = (attempts a + attempts b)%nat.
Proof. unfold attempts. rewrite filter_app, length_app. reflexivity. Qed.

Lemma after_loop_settles (x : Executor) :
  exists out, after_loop x = ([], out) /\ forall x', out <> Suspend x'.
Proof.
  unfold after_loop, complete.
  destruct (response x) as [r|]; [|eexists; split; [reflexivity|discriminate]].
  destruct (ok r); [|eexists; split; [reflexivity|discriminate]].
  destruct (body r) as [d|m]; [|eexists; split; [reflexivity|discriminate]].
  destruct (first_content d); eexists; split; try reflexivity; discriminate.
Qed.

(** Each run between two [await]s spends what it fetches from the budget
    of the executor. *)
Lemma resume_budget (x : Executor) (w : Wake) :
  match resume x w with
  | (acts, Suspend x') => (attempts acts + remaining x' <= remaining x)%nat
  | (acts, _) => (attempts acts <= remaining x)%nat
  end.
Proof.
  assert (Hloop : forall y,
    match loop y with
    | (acts, Suspend x') =>
        (attempts acts + remaining x' <= Z.to_nat (maxRetries - retryCount y))%nat
    | (acts, _) => (attempts acts <= Z.to_nat (maxRetries - retryCount y))%nat
    end).
  { intros y. unfold loop. destruct (Z.ltb_spec (retryCount y) maxRetries).
    - unfold remaining, attempts, maxRetries in *. simpl. lia.
    - destruct (after_loop_settles y) as (out & -> & Hout).
      destruct out; unfold attempts; simpl; try lia. exfalso. eapply Hout. reflexivity. }
  assert (Hcatch : forall m y, x_stage y = AwaitFetch ->
    retryCount y = retryCount x -> x_stage x = AwaitFetch ->
    match catch m y with
    | (acts, Suspend x') => (attempts acts + remaining x' <= remaining x)%nat
    | (acts, _) => (attempts acts <= remaining x)%nat
    end).
  { intros m y Hy Hrc Hx. unfold catch. simpl.
    destruct (Z.geb_spec (retryCount y + 1) maxRetries).
    - unfold attempts. simpl. lia.
    - unfold remaining. rewrite Hx. simpl. unfold attempts. simpl.
      unfold maxRetries in *. lia. }
  unfold resume.
  destruct (x_stage x) eqn:Hx, w as [[m|r]|]; simpl;
    try (unfold attempts; simpl; lia).
  - apply Hcatch; auto.
  - destruct (ok r).
    + destruct (after_loop_settles (with_response r x)) as (out & -> & Hout).
      destruct out; unfold attempts; simpl; try lia. exfalso. eapply Hout. reflexivity.
    + destruct (body r) as [d|m].
      * destruct (status r =? 429); simpl; [|unfold attempts; simpl; lia].
        unfold remaining. rewrite Hx. simpl. unfold attempts. simpl.
        unfold maxRetries. lia.
      * apply Hcatch; auto.
  - specialize (Hloop (with_retryCount (retryCount x + 1) x)).
    assert (Hr : remaining x = Z.to_nat (maxRetries - (retryCount x + 1)))
      by (unfold remaining; rewrite Hx; reflexivity).
    rewrite Hr. exact Hloop.
  - specialize (Hloop x).
    assert (Hr : remaining x = Z.to_nat (maxRetries - retryCount x))
      by (unfold remaining; rewrite Hx; reflexivity).
    rewrite Hr. exact Hloop.
Qed.

Lemma play_budget (ws : list Wake) (x : Executor) :
  (attempts (play ws x).1 <= remaining x)%nat.
Proof.
  revert x. induction ws as [|w ws IH]; intros x; simpl;
    [unfold attempts; simpl; lia|].
  pose proof (resume_budget x w) as H.
  destruct (resume x w) as [acts [x'| |]]; simpl; try exact H.
  specialize (IH x'). destruct (play ws x') as [acts' out]. simpl in *.
  rewrite attempts_app. lia.
Qed.

Lemma not_ok_429 (r : Response) : status r = 429 -> ok r = false.
Proof. intros H. unfold ok. rewrite H. reflexivity. Qed.

(** The retry policy for answers whose error body is JSON. Whatever the
    provider answers, one invocation of the upstream caller makes at most
    3 [fetch] calls. A 429 answer to the attempt with [retryCount = a] is
    followed by a wait of [2^a] seconds; three 429 answers in a row give
    waits of 1 s, 2 s and 4 s, two retries, and then the rejection "after
    multiple attempts". Any other non-success answer, with error body
    [errorData], rejects at once with that body and the status, and no
    further action. *)
Lemma upstream_retry_policy
    (key : string) (call : Call) (ws : list Wake) (x : Executor)
    (limited : Response) (limitedData : Json)
    (failed : Response) (errorData : Json) :
  x_stage x = AwaitFetch ->
  status limited = 429 -> body limited = Parsed limitedData ->
  ok failed = false -> status failed <> 429 ->
  body failed = Parsed errorData ->
  (attempts (upstream key call ws).1 <= 3)%nat
  /\ resume x (Fetched (FetchResponds limited))
     = ([Sleep (2 ^ retryCount x * 1000)],
        Suspend (at_stage Backoff429 (with_response limited x)))
  /\ upstream key call
       [Fetched (FetchResponds limited); TimerFired;
        Fetched (FetchResponds limited); TimerFired;
        Fetched (FetchResponds limited); TimerFired]
     = ([Fetch call; Sleep 1000; Fetch call; Sleep 2000; Fetch call;
         Sleep 4000],
        Reject AttemptsExhausted)
  /\ resume x (Fetched (FetchResponds failed))
     = ([], Reject (UpstreamError errorData (status failed))).
Proof.
  intros Hx H429 Hlimited Hfailed Hother Herror.
  pose proof (not_ok_429 limited H429) as Hno.
  repeat split.
  - unfold upstream.
    pose proof (play_budget ws (first_attempt key call)) as H.
    destruct (play ws (first_attempt key call)) as [acts out].
    simpl in *. change (attempts (Fetch call :: acts)) with (S (attempts acts)).
    change (remaining (first_attempt key call)) with 2%nat in H. lia.
  - unfold resume. rewrite Hx, Hno, Hlimited, H429. reflexivity.
  - unfold upstream, play, resume, loop, after_loop. simpl.
    rewrite Hno, Hlimited, H429. simpl. rewrite Hno. reflexivity.
  - unfold resume. rewrite Hx, Hfailed, Herror.
    destruct (Z.eqb_spec (status failed) 429); [contradiction|reflexivity].
Qed.

Lemma upstream_retry_policy_witness :
  x_stage (first_attempt "k" sample_call) = AwaitFetch
  /\ status rate_limited = 429
  /\ ok server_error = false /\ status server_error <> 429
  /\ resume (first_attempt "k" sample_call)
       (Fetched (FetchResponds server_error))
     = ([], Reject (UpstreamError (JObj [("message", JStr "boom")]) 500)).
Proof.
  split; [reflexivity|]. split; [reflexivity|]. split; [reflexivity|].
  split; [discriminate|].
  apply (upstream_retry_policy "k" sample_call []
           (first_attempt "k" sample_call)
           rate_limited (JObj [("message", JStr "slow down")])
           server_error (JObj [("message", JStr "boom")]));
    [reflexivity | reflexivity | reflexivity | reflexivity | discriminate
    | reflexivity].
Defined.

(** C4, as the claim reads, fails: after a network failure of the first
    attempt (attempt 0) the wait is 2000 ms, not the [2^0] seconds of the
    429 branch. *)
Lemma network_backoff_doubled :
  (resume (first_attempt "k" sample_call) (Fetched (FetchThrows "timeout"))).1
  = [Sleep 2000]
  /\ (resume (first_attempt "k" sample_call)
        (Fetched (FetchResponds rate_limited))).1
     = [Sleep 1000]
  /\ 2000 <> 2 ^ 0 * 1000.
Proof. repeat split. discriminate. Qed.

(** C4, amended: when the [fetch] of the attempt with [retryCount = a]
    throws, the count is raised first; if it has reached 3 the promise is
    rejected with "Network error after multiple retries" and the message
    of that last error, with no wait; otherwise the executor waits
    [2^(a+1)] seconds and then fetches again. Three failures in a row give
    waits of 2 s and 4 s, three attempts, and the rejection carrying the
    third message. *)
Theorem network_retry_policy
    (key : string) (call : Call) (x : Executor) (m m0 m1 m2 : string) :
  x_stage x = AwaitFetch ->
  resume x (Fetched (FetchThrows m))
  = (if retryCount x + 1 >=? maxRetries
     then ([], Reject (NetworkError m))
     else ([Sleep (2 ^ (retryCount x + 1) * 1000)],
           Suspend (at_stage BackoffCatch
                      (with_retryCount (retryCount x + 1) x))))
  /\ resume (at_stage BackoffCatch (with_retryCount (retryCount x + 1) x))
       TimerFired
     = (if retryCount x + 1 <? maxRetries
        then ([Fetch (x_call x)],
              Suspend (at_stage AwaitFetch
                         (with_retryCount (retryCount x + 1) x)))
        else after_loop
               (at_stage BackoffCatch (with_retryCount (retryCount x + 1) x)))
  /\ upstream key call
       [Fetched (FetchThrows m0); TimerFired;
        Fetched (FetchThrows m1); TimerFired;
        Fetched (FetchThrows m2)]
     = ([Fetch call; Sleep 2000; Fetch call; Sleep 4000; Fetch call],
        Reject (NetworkError m2)).
Proof.
  intros Hx. repeat split.
  unfold resume. rewrite Hx. reflexivity.
Qed.

Lemma network_retry_policy_witness :
  x_stage (first_attempt "k" sample_call) = AwaitFetch
  /\ resume (first_attempt "k" sample_call) (Fetched (FetchThrows "timeout"))
     = ([Sleep 2000],
        Suspend (at_stage BackoffCatch
                   (with_retryCount 1 (first_attempt "k" sample_call)))).
Proof.
  split; [reflexivity|].
  apply (network_retry_policy "k" sample_call
           (first_attempt "k" sample_call) "timeout" "a" "b" "c").
  reflexivity.
Defined.

(** C3 fails for an answer whose body is not JSON. Reading the error
    body (line 145) is inside the [try], so the exception of
    [response.json()] goes to the [catch] clause of the loop: a
    non-success answer of any status, 429 or not, is then handled like a
    network failure. It is retried after [2^(a+1)] seconds instead of
    rejecting at once with its status, and three such answers end, after
    three [fetch] calls and waits of 2 s and 4 s, in "Network error after
    multiple retries" with the parser's message. *)
Theorem unparseable_error_body_is_retried
    (key : string) (call : Call) (x : Executor) (failed : Response)
    (m : string) :
  x_stage x = AwaitFetch ->
  ok failed = false ->
  body failed = Unparseable m ->
  resume x (Fetched (FetchResponds failed))
  = (if retryCount x + 1 >=? maxRetries
     then ([], Reject (NetworkError m))
     else ([Sleep (2 ^ (retryCount x + 1) * 1000)],
           Suspend (at_stage BackoffCatch
                      (with_retryCount (retryCount x + 1)
                         (with_response failed x)))))
  /\ upstream key call
       [Fetched (FetchResponds failed); TimerFired;
        Fetched (FetchResponds failed); TimerFired;
        Fetched (FetchResponds failed)]
     = ([Fetch call; Sleep 2000; Fetch call; Sleep 4000; Fetch call],
        Reject (NetworkError m)).
Proof.
  intros Hx Hok Hbody. split.
  - unfold resume. rewrite Hx, Hok, Hbody. reflexivity.
  - unfold upstream, play, resume. cbn -[ok].
    rewrite Hok, Hbody. reflexivity.
Qed.

Lemma unparseable_error_body_is_retried_witness :
  ok bad_gateway = false
  /\ status bad_gateway <> 429
  /\ upstream "k" sample_call
       [Fetched (FetchResponds bad_gateway); TimerFired;
        Fetched (FetchResponds bad_gateway); TimerFired;
        Fetched (FetchResponds bad_gateway)]
     = ([Fetch sample_call; Sleep 2000; Fetch sample_call; Sleep 4000;
         Fetch sample_call],
        Reject (NetworkError "Unexpected token <")).
Proof.
  split; [reflexivity|]. split; [discriminate|].
  apply (unparseable_error_body_is_retried "k" sample_call
           (first_attempt "k" sample_call) bad_gateway
           "Unexpected token <" eq_refl eq_refl eq_refl).
Defined.

End UpstreamFacts.

(* ===================================================================== *)
(** ** Facts about the route *)
(* ===================================================================== *)

Section RouteFacts.
Import Js Route.

Lemma start_unrecognized (id : nat) (rq : Request) (st : Server) :
  select rq = None ->
  start id rq st
  = {| responseCache := responseCache st;
       ongoingRequests :=
         <[cacheKey rq := length (promises st)]>
           (delete (cacheKey rq) (ongoingRequests st));
       promises := promises st ++ [Rejected InvalidTask];
       handlers := handlers st;
       replies := <[id := Error500 object_Object]> (replies st);
       log := log st;
       arrivals := arrivals st |}.
Proof. intros H. unfold start. rewrite H. reflexivity. Qed.

Lemma start_recognized (id : nat) (rq : Request) (st : Server) (call : Call) :
  select rq = Some call ->
  start id rq st
  = {| responseCache := responseCache st;
       ongoingRequests :=
         <[cacheKey rq := length (promises st)]> (ongoingRequests st);
       promises :=
         promises st ++ [Pending (first_attempt (cacheKey rq) call)];
       handlers :=
         handlers st ++ [{| h_id := id; h_request := rq;
                            h_promise := length (promises st);
                            h_await := Own |}];
       replies := replies st;
       log := log st ++ [{| e_promise := length (promises st);
                            e_key := cacheKey rq;
                            e_action := Fetch call |}];
       arrivals := arrivals st |}.
Proof. intros H. unfold start. rewrite H. reflexivity. Qed.

(** The first [fetch] that [start] journals is the one the loop issues on
    entry, with [retryCount = 0]. *)
Lemma first_attempt_is_loop_entry (key : string) (call : Call) :
  loop (first_attempt key call)
  = ([Fetch call], Suspend (first_attempt key call)).
Proof. reflexivity. Qed.

Ltac other_task t name :=
  let N := fresh "N" in
  destruct (String.eqb_spec t name) as [->|N];
  [ | assert (String.eqb name t = false)
        by (apply String.eqb_neq; congruence) ].

(** The selector against the policy table. For a task of the table it
    yields a call with the table's model, temperature and token budget;
    for any other task it yields none, and lines 42-213 reject the promise
    with "Invalid task type" and answer with an error while the journal of
    network actions stays as it was. *)
Lemma select_against_policy (rq : Request) (id : nat) (st : Server) :
  match policy (task rq) with
  | Some (m, t, n) =>
      exists call, select rq = Some call /\ model call = m
                   /\ temperature call = t /\ maxTokens call = n
  | None =>
      select rq = None
      /\ promises (start id rq st) = promises st ++ [Rejected InvalidTask]
      /\ error InvalidTask = "Invalid task type"
      /\ log (start id rq st) = log st
      /\ replies (start id rq st) !! id = Some (Error500 object_Object)
  end
  /\ policy "summarize"
     = Some (default_model, QArith_base.Qmake 3 10, 1024)
  /\ policy "quiz" = Some (reasoning_model, QArith_base.Qmake 7 10, 1500)
  /\ policy "askdoubt" = Some (default_model, QArith_base.Qmake 4 10, 1024)
  /\ policy "mindmap" = Some (reasoning_model, QArith_base.Qmake 7 10, 2000)
  /\ policy "flashcards"
     = Some (default_model, QArith_base.Qmake 5 10, 1500).
Proof.
  split; [|repeat split].
  destruct rq as [t c p]. simpl.
  other_task t "summarize"; [cbn; eexists; repeat split|].
  other_task t "quiz"; [cbn; eexists; repeat split|].
  other_task t "askdoubt"; [cbn; eexists; repeat split|].
  other_task t "mindmap"; [cbn; eexists; repeat split|].
  other_task t "flashcards"; [cbn; eexists; repeat split|].
  assert (Hsel : select {| task := t; content := c; prompt := p |} = None).
  { unfold select. simpl.
    repeat match goal with
           | H : (_ =? _)%string = false |- _ => rewrite H; clear H
           end.
    repeat match goal with
           | H : _ <> _ |- _ => apply String.eqb_neq in H; rewrite H; clear H
           end.
    reflexivity. }
  assert (Hpol : policy t = None).
  { unfold policy, policy_table. cbn [find fst].
    repeat match goal with
           | H : (_ =? t)%string = false |- _ => rewrite H; clear H
           end.
    reflexivity. }
  rewrite Hpol, (start_unrecognized _ _ _ Hsel). cbn [promises log replies].
  split; [exact Hsel|]. repeat split. apply lookup_insert_eq.
Qed.

(** *** Requests that settle inside [new Promise] *)

(** C2 fails for an unrecognized task: when the request misses the cache
    and finds nothing ongoing, its promise is already rejected by the time
    it is stored, so after the request has been answered the map of
    ongoing requests still holds the key, pointing at the settled promise.
    No network action was journalled. *)
Theorem unrecognized_task_stays_ongoing
    (now : Z) (rq : Request) (st : Server) :
  select rq = None ->
  cached now (responseCache st !! cacheKey rq) = None ->
  ongoingRequests st !! cacheKey rq = None ->
  promises (step now (Arrives rq) st) !! length (promises st)
  = Some (Rejected InvalidTask)
  /\ ongoingRequests (step now (Arrives rq) st) !! cacheKey rq
     = Some (length (promises st))
  /\ replies (step now (Arrives rq) st) !! arrivals st
     = Some (Error500 object_Object)
  /\ handlers (step now (Arrives rq) st) = handlers st
  /\ log (step now (Arrives rq) st) = log st.
Proof.
  intros Hsel Hcache Hongoing. unfold step, POST. simpl.
  rewrite Hcache, Hongoing, (start_unrecognized _ _ _ Hsel). simpl.
  repeat split.
  - rewrite lookup_app_r by lia. rewrite Nat.sub_diag. reflexivity.
  - apply lookup_insert_eq.
  - apply lookup_insert_eq.
Qed.

Lemma unrecognized_task_stays_ongoing_witness :
  select translate_hello = None
  /\ ongoingRequests (step 0 (Arrives translate_hello) init)
       !! "translate:hello:undefined" = Some 0%nat
  /\ promises (step 0 (Arrives translate_hello) init) !! 0%nat
     = Some (Rejected InvalidTask).
Proof.
  split; [reflexivity|].
  pose proof (unrecognized_task_stays_ongoing 0 translate_hello init
                eq_refl eq_refl eq_refl) as (Hp & Ho & _).
  split; [exact Ho | exact Hp].
Defined.

(** *** Handlers woken by a settled promise *)

Lemma foldl_continue_ind (P : Server -> Prop) (v : Promise)
    (ws : list Handler) (st : Server) :
  P st ->
  (forall s h, h ∈ ws -> P s -> P (continue v h s)) ->
  P (foldl (fun s h => continue v h s) st ws).
Proof.
  revert st. induction ws as [|h ws IH]; intros st Hst Hstep; simpl.
  - exact Hst.
  - apply IH.
    + apply Hstep; [left | exact Hst].
    + intros s h' Hin. apply Hstep. right. exact Hin.
Qed.

Lemma start_arrivals id rq st : arrivals (start id rq st) = arrivals st.
Proof. unfold start. destruct (select rq); reflexivity. Qed.

Lemma start_responseCache id rq st :
  responseCache (start id rq st) = responseCache st.
Proof. unfold start. destruct (select rq); reflexivity. Qed.

Lemma start_promises id rq st :
  exists v, promises (start id rq st) = promises st ++ [v]
            /\ forall x, v = Pending x -> x_key x = cacheKey rq.
Proof.
  unfold start. destruct (select rq); simpl; eexists; split;
    try reflexivity; intros x [= <-]; reflexivity.
Qed.

Lemma start_replies_other id rq st id' :
  id' <> id -> replies (start id rq st) !! id' = replies st !! id'.
Proof.
  intros Hne. unfold start. destruct (select rq); simpl; [reflexivity|].
  apply lookup_insert_ne. congruence.
Qed.

Lemma continue_arrivals v h st : arrivals (continue v h st) = arrivals st.
Proof.
  unfold continue. destruct v as [x|r|e]; try reflexivity.
  destruct (h_await h); [apply start_arrivals | reflexivity].
Qed.

Lemma continue_responseCache v h st :
  responseCache (continue v h st) = responseCache st.
Proof.
  unfold continue. destruct v as [x|r|e]; try reflexivity.
  destruct (h_await h); [apply start_responseCache | reflexivity].
Qed.

Lemma continue_promises_length v h st :
  (length (promises st) <= length (promises (continue v h st)))%nat.
Proof.
  unfold continue. destruct v as [x|r|e]; simpl; try lia.
  destruct (h_await h); simpl; [|lia].
  destruct (start_promises (h_id h) (h_request h) st) as (w & -> & _).
  rewrite length_app. simpl. lia.
Qed.

Lemma continue_replies_other v h st id :
  id <> h_id h -> replies (continue v h st) !! id = replies st !! id.
Proof.
  intros Hne. unfold continue. destruct v as [x|r|e]; simpl.
  - reflexivity.
  - apply lookup_insert_ne. congruence.
  - destruct (h_await h); simpl.
    + apply start_replies_other. exact Hne.
    + apply lookup_insert_ne. congruence.
Qed.

Lemma continue_handler_ids v h st (n : nat) :
  (h_id h < n)%nat ->
  (forall h', h' ∈ handlers st -> (h_id h' < n)%nat) ->
  forall h', h' ∈ handlers (continue v h st) -> (h_id h' < n)%nat.
Proof.
  intros Hh Hst h'. unfold continue.
  destruct v as [x|r|e]; simpl; try apply Hst.
  destruct (h_await h); simpl; [|apply Hst].
  unfold start. destruct (select (h_request h)); simpl; [|apply Hst].
  intros Hin. apply elem_of_app in Hin as [Hin|Hin]; [apply Hst, Hin|].
  apply list_elem_of_singleton in Hin. subst h'. exact Hh.
Qed.

Lemma continue_numbered v h st :
  (h_id h < arrivals st)%nat -> numbered st -> numbered (continue v h st).
Proof.
  intros Hh [Hhs Hrs]. split.
  - rewrite continue_arrivals.
    apply continue_handler_ids; assumption.
  - intros id Hid. rewrite continue_arrivals in Hid.
    rewrite continue_replies_other by lia. apply Hrs, Hid.
Qed.

Lemma start_as_continue (id : nat) (rq : Request) (st : Server) :
  start id rq st
  = continue (Rejected InvalidTask)
      {| h_id := id; h_request := rq; h_promise := 0; h_await := Shared |} st.
Proof. reflexivity. Qed.

Lemma start_numbered id rq st :
  (id < arrivals st)%nat -> numbered st -> numbered (start id rq st).
Proof. intros Hid H. rewrite start_as_continue. apply continue_numbered; auto. Qed.

Lemma settle_unfold p key v st :
  settle p key v st
  = foldl (fun s h => continue v h s) (settled_base p key v st)
      (filter (fun h => awaits p h = true) (handlers st)).
Proof. reflexivity. Qed.

Lemma settle_numbered p key v st : numbered st -> numbered (settle p key v st).
Proof.
  intros [Hhs Hrs]. rewrite settle_unfold.
  eapply (foldl_continue_ind (fun s => numbered s /\ arrivals s = arrivals st)).
  - split; [split|reflexivity]; simpl.
    + intros h Hin. apply list_elem_of_filter in Hin as [_ Hin]. auto.
    + exact Hrs.
  - intros s h Hin [Hs Ha]. apply list_elem_of_filter in Hin as [_ Hin].
    split; [|rewrite continue_arrivals; exact Ha].
    apply continue_numbered; [|exact Hs]. rewrite Ha. auto.
Qed.

Lemma wake_numbered now p w st : numbered st -> numbered (wake now p w st).
Proof.
  intros H. unfold wake.
  destruct (promises st !! p) as [[x|r|e]|]; try exact H.
  unfold advance. destruct (resume x w) as [acts [x'|r|e]].
  - exact H.
  - apply settle_numbered. exact H.
  - apply settle_numbered. exact H.
Qed.

Lemma POST_numbered now rq st : numbered st -> numbered (POST now rq st).
Proof.
  intros [Hhs Hrs].
  assert (H0 : numbered (set_arrivals (S (arrivals st)) st)).
  { split; simpl.
    - intros h Hin. specialize (Hhs h Hin). lia.
    - intros id Hid. apply Hrs. lia. }
  assert (Hreply : forall r,
    numbered (reply (arrivals st) r (set_arrivals (S (arrivals st)) st))).
  { intros r. split; simpl.
    - intros h Hin. specialize (Hhs h Hin). lia.
    - intros id Hid. rewrite lookup_insert_ne by lia. apply Hrs. lia. }
  unfold POST.
  destruct (cached now _) as [r|]; [apply Hreply|].
  destruct (ongoingRequests _ !! _) as [p|].
  - assert (Hwait : numbered
      (set_handlers
         (handlers (set_arrivals (S (arrivals st)) st)
          ++ [{| h_id := arrivals st; h_request := rq; h_promise := p;
                 h_await := Shared |}])
         (set_arrivals (S (arrivals st)) st))).
    { split; simpl.
      - intros h Hin. apply elem_of_app in Hin as [Hin|Hin].
        + specialize (Hhs h Hin). lia.
        + apply list_elem_of_singleton in Hin. subst h. simpl. lia.
      - intros id Hid. apply Hrs. lia. }
    destruct (promises _ !! p) as [[x|r|e]|]; try exact Hwait.
    + apply Hreply.
    + apply continue_numbered; [simpl; lia | exact H0].
  - apply start_numbered; [simpl; lia | exact H0].
Qed.

Lemma step_numbered now ev st : numbered st -> numbered (step now ev st).
Proof.
  destruct ev; simpl;
    [apply POST_numbered | apply wake_numbered | apply wake_numbered].
Qed.

Lemma run_numbered (evs : list (Z * Event)) (st : Server) :
  numbered st -> numbered (run evs st).
Proof.
  revert st. induction evs as [|[now ev] evs IH]; intros st H; simpl.
  - exact H.
  - apply IH, step_numbered, H.
Qed.

Lemma init_numbered : numbered init.
Proof. split; [intros h Hin; inversion Hin | intros id _; reflexivity]. Qed.

(** *** Promises that settle after an [await] *)

(** When the executor settles after at least one [await], the promise is
    already stored under its key, and the [finally] clause does remove it:
    once the woken handlers have run, the key no longer points at the
    settled promise. *)
Lemma settle_forgets (p : nat) (key : string) (v : Promise) (st : Server) :
  (p < length (promises st))%nat ->
  ongoingRequests (settle p key v st) !! key <> Some p.
Proof.
  intros Hp. rewrite settle_unfold.
  apply (foldl_continue_ind
           (fun s => (p < length (promises s))%nat
                     /\ ongoingRequests s !! key <> Some p)).
  - simpl. rewrite length_insert, lookup_delete_eq. split; [exact Hp|discriminate].
  - intros s h _ [Hlen Hkey]. split.
    + pose proof (continue_promises_length v h s). lia.
    + unfold continue. destruct v as [x|r|e]; try exact Hkey.
      destruct (h_await h); [|exact Hkey].
      unfold start. destruct (select (h_request h)); simpl.
      * destruct (decide (cacheKey (h_request h) = key)) as [<-|Hne].
        -- rewrite lookup_insert_eq. intros [= E]. lia.
        -- rewrite lookup_insert_ne by exact Hne. exact Hkey.
      * destruct (decide (cacheKey (h_request h) = key)) as [<-|Hne].
        -- rewrite lookup_insert_eq. intros [= E]. lia.
        -- rewrite lookup_insert_ne, lookup_delete_ne by exact Hne. exact Hkey.
Qed.

Lemma wake_forgets (now : Z) (p : nat) (w : Wake) (st : Server)
    (x : Executor) (acts : list Action) (out : Outcome) :
  promises st !! p = Some (Pending x) ->
  resume x w = (acts, out) ->
  (forall x', out <> Suspend x') ->
  ongoingRequests (wake now p w st) !! x_key x <> Some p.
Proof.
  intros Hp Hres Hout. unfold wake. rewrite Hp. unfold advance. rewrite Hres.
  apply lookup_lt_Some in Hp.
  destruct out as [x'|r|e].
  - exfalso. eapply Hout. reflexivity.
  - apply settle_forgets. exact Hp.
  - apply settle_forgets. exact Hp.
Qed.

(** *** A request that finds its key among the ongoing requests *)

Lemma POST_waits (now : Z) (rq : Request) (st : Server) (p : nat)
    (x : Executor) :
  cached now (responseCache st !! cacheKey rq) = None ->
  ongoingRequests st !! cacheKey rq = Some p ->
  promises st !! p = Some (Pending x) ->
  POST now rq st
  = set_handlers
      (handlers st ++ [{| h_id := arrivals st; h_request := rq;
                          h_promise := p; h_await := Shared |}])
      (set_arrivals (S (arrivals st)) st).
Proof.
  intros Hc Ho Hp. unfold POST. simpl. rewrite Hc, Ho, Hp. reflexivity.
Qed.


(** *** What leaves a key alone *)

Lemma fetches_for_app k (l1 l2 : list Entry) :
  fetches_for k (l1 ++ l2) = (fetches_for k l1 + fetches_for k l2)%nat.
Proof. unfold fetches_for. rewrite filter_app, length_app. reflexivity. Qed.

Lemma fetches_for_other k p key (acts : list Action) :
  key <> k -> fetches_for k (map (Build_Entry p key) acts) = 0%nat.
Proof.
  intros Hne. unfold fetches_for. induction acts as [|a acts IH]; simpl.
  - reflexivity.
  - rewrite filter_cons_False; [exact IH|]. simpl. intros [E _]. congruence.
Qed.

Lemma start_handlers id rq st h :
  h ∈ handlers (start id rq st) -> h ∈ handlers st \/ h_await h = Own.
Proof.
  unfold start. destruct (select rq); simpl; [|auto].
  intros Hin. apply elem_of_app in Hin as [Hin|Hin]; [auto|].
  apply list_elem_of_singleton in Hin. subst h. auto.
Qed.

Lemma start_fetches k id rq st :
  cacheKey rq <> k ->
  fetches_for k (log (start id rq st)) = fetches_for k (log st).
Proof.
  intros Hne. unfold start. destruct (select rq); simpl; [|reflexivity].
  rewrite fetches_for_app.
  pose proof (fetches_for_other k (length (promises st)) _ [Fetch c] Hne) as H.
  simpl in H. rewrite H. lia.
Qed.

Lemma start_quiet k id rq st :
  cacheKey rq <> k -> quiet k st -> quiet k (start id rq st).
Proof.
  intros Hne [Hps Hhs]. split.
  - intros p x Hp.
    destruct (start_promises id rq st) as (v & Hv & Hkey).
    rewrite Hv in Hp. apply lookup_app_Some in Hp as [Hp|[_ Hp]].
    + eapply Hps, Hp.
    + destruct (p - length (promises st))%nat; [|discriminate].
      injection Hp as Hp. rewrite (Hkey x Hp). exact Hne.
  - intros h Hin Hshared.
    apply start_handlers in Hin as [Hin|Hown]; [auto | congruence].
Qed.

Lemma continue_kept k v h st s :
  (h_await h = Shared ->
   (exists r, v = Fulfilled r) \/ cacheKey (h_request h) <> k) ->
  kept k st s -> kept k st (continue v h s).
Proof.
  intros Hh (Hq & Hc & Hf). unfold continue.
  destruct v as [x|r|e];
    [exact (conj Hq (conj Hc Hf)) | exact (conj Hq (conj Hc Hf)) |].
  destruct (h_await h) eqn:Hw; [|exact (conj Hq (conj Hc Hf))].
  destruct (Hh eq_refl) as [[r [=]]|Hne].
  split; [|split].
  - apply start_quiet; assumption.
  - rewrite start_responseCache. exact Hc.
  - rewrite start_fetches by exact Hne. exact Hf.
Qed.

Lemma settle_kept k p key v st :
  (forall x, v <> Pending x) ->
  (forall p' x, p' <> p -> promises st !! p' = Some (Pending x) ->
                x_key x <> k) ->
  (forall h, h ∈ handlers st -> h_await h = Shared ->
             cacheKey (h_request h) = k ->
             h_promise h = p /\ exists r, v = Fulfilled r) ->
  kept k st (settle p key v st).
Proof.
  intros Hv Hps Hhs. rewrite settle_unfold.
  apply (foldl_continue_ind (kept k st)).
  - repeat split; simpl.
    + intros p' x Hp. apply list_lookup_insert_Some in Hp
        as [(<- & Hx & _)|[Hne Hp]].
      * exfalso. eapply Hv. exact Hx.
      * eapply Hps; [|exact Hp]. congruence.
    + intros h Hin Hshared Hkey.
      apply list_elem_of_filter in Hin as [Hnot Hin].
      destruct (Hhs h Hin Hshared Hkey) as [Hp _].
      unfold awaits in Hnot. rewrite Hp, Nat.eqb_refl in Hnot. discriminate.
  - intros s h Hin Hs. apply list_elem_of_filter in Hin as [_ Hin].
    apply continue_kept; [|exact Hs].
    intros Hshared.
    destruct (decide (cacheKey (h_request h) = k)) as [Hkey|Hne]; [|auto].
    left. apply (Hhs h Hin Hshared Hkey).
Qed.

Lemma catch_key m x acts x' :
  catch m x = (acts, Suspend x') -> x_key x' = x_key x.
Proof.
  unfold catch. simpl. destruct (_ >=? _); intros [= _ <-]; reflexivity.
Qed.

Lemma after_loop_acts x acts out : after_loop x = (acts, out) -> acts = [].
Proof.
  unfold after_loop. destruct (response x) as [r|]; [destruct (ok r)|];
    intros [= <- _]; reflexivity.
Qed.

Lemma loop_key x acts x' :
  loop x = (acts, Suspend x') -> x_key x' = x_key x.
Proof.
  unfold loop. destruct (_ <? _).
  - intros [= _ <-]. reflexivity.
  - intros H. destruct (after_loop_settles x) as (out & E & Hout).
    rewrite E in H. injection H as _ H. exfalso. eapply Hout, H.
Qed.

(** The executor keeps its key from one [await] to the next. *)
Lemma resume_key x w acts x' :
  resume x w = (acts, Suspend x') -> x_key x' = x_key x.
Proof.
  unfold resume.
  destruct (x_stage x), w as [[m|r]|]; try (intros [= _ <-]; reflexivity).
  - apply catch_key.
  - destruct (ok r).
    + intros H. destruct (after_loop_settles (with_response r x))
        as (out & E & Hout).
      rewrite E in H. injection H as _ H. exfalso. eapply Hout, H.
    + destruct (body r) as [d|m].
      * destruct (status r =? 429); intros [= _ <-]; reflexivity.
      * intros H. apply catch_key in H. exact H.
  - intros H. apply loop_key in H. exact H.
  - intros H. apply loop_key in H. exact H.
Qed.

(** A run that resolves the promise has made no [fetch] and started no
    timer: the result comes straight from the answer received. *)
Lemma resume_resolve_acts x w acts r :
  resume x w = (acts, Resolve r) -> acts = [].
Proof.
  assert (Hcatch : forall m y, catch m y = (acts, Resolve r) -> acts = []).
  { intros m y. unfold catch. destruct (_ >=? _); discriminate. }
  assert (Hloop : forall y, loop y = (acts, Resolve r) -> acts = []).
  { intros y. unfold loop. destruct (_ <? _); [discriminate|].
    apply after_loop_acts. }
  unfold resume.
  destruct (x_stage x), w as [[m|rs]|]; try discriminate; auto.
  - apply Hcatch.
  - destruct (ok rs); [apply after_loop_acts|].
    destruct (body rs) as [d|m]; [|apply Hcatch].
    destruct (status rs =? 429); discriminate.
  - apply Hloop.
  - apply Hloop.
Qed.

Lemma journal_calm k c n p key acts s :
  key <> k -> calm k c n s -> calm k c n (journal p key acts s).
Proof.
  intros Hne (Hq & Hc & Hf). split; [exact Hq|]. split; [exact Hc|].
  simpl. rewrite fetches_for_app, (fetches_for_other k p key acts Hne). lia.
Qed.

Lemma settle_calm k c n p key v s :
  (forall x, v <> Pending x) -> calm k c n s -> calm k c n (settle p key v s).
Proof.
  intros Hv ([Hps Hhs] & Hc & Hf).
  destruct (settle_kept k p key v s Hv) as (Hq' & Hc' & Hf').
  - intros p' x _ Hp. eapply Hps, Hp.
  - intros h Hin Hshared Hkey. exfalso. exact (Hhs h Hin Hshared Hkey).
  - split; [exact Hq'|]. split; [rewrite Hc'; exact Hc | rewrite Hf'; exact Hf].
Qed.

Lemma wake_calm k c n now p w s : calm k c n s -> calm k c n (wake now p w s).
Proof.
  intros H. unfold wake.
  destruct (promises s !! p) as [[x|r|e]|] eqn:Hp; try exact H.
  assert (Hne : x_key x <> k) by (destruct H as ([Hps _] & _); eapply Hps, Hp).
  unfold advance. destruct (resume x w) as [acts [x'|r|e]] eqn:Hres.
  - apply (journal_calm k c n p (x_key x) acts s Hne) in H.
    destruct H as ([Hps Hhs] & Hc & Hf).
    split; [|split; assumption]. split; [|exact Hhs].
    intros p' y Hy. simpl in Hy.
    apply list_lookup_insert_Some in Hy as [(<- & [= <-] & _)|[_ Hy]].
    + rewrite (resume_key _ _ _ _ Hres). exact Hne.
    + eapply Hps, Hy.
  - apply settle_calm; [discriminate|].
    apply (journal_calm k c n p (x_key x) acts s Hne) in H.
    destruct H as (Hq & Hc & Hf).
    split; [exact Hq|]. split; [|exact Hf].
    simpl. rewrite lookup_insert_ne by exact Hne. exact Hc.
  - apply settle_calm; [discriminate|].
    apply journal_calm; assumption.
Qed.

Lemma cached_live now c :
  now - timestamp c < CACHE_TTL -> cached now (Some c) = Some (data c).
Proof.
  intros H. unfold cached.
  destruct (Z.ltb_spec (now - timestamp c) CACHE_TTL); [reflexivity|lia].
Qed.

Lemma POST_calm k c n now rq s :
  now - timestamp c < CACHE_TTL ->
  calm k c n s -> calm k c n (POST now rq s).
Proof.
  intros Hlive H.
  assert (H0 : calm k c n (set_arrivals (S (arrivals s)) s)) by exact H.
  unfold POST.
  destruct (cached now _) as [r|] eqn:Hcached; [exact H|].
  assert (Hne : cacheKey rq <> k).
  { intros E. simpl in Hcached. rewrite E in Hcached.
    destruct H as (_ & Hc & _). rewrite Hc, (cached_live _ _ Hlive) in Hcached.
    discriminate. }
  assert (Hkept : forall v h, cacheKey (h_request h) = cacheKey rq ->
    calm k c n (continue v h (set_arrivals (S (arrivals s)) s))).
  { intros v h Hkey. destruct H0 as (Hq & Hc & Hf).
    destruct (continue_kept k v h _ _
                (fun _ => or_intror (eq_ind_r (fun key => key <> k) Hne Hkey))
                (conj Hq (conj eq_refl eq_refl))) as (Hq' & Hc' & Hf').
    split; [exact Hq'|]. split; [rewrite Hc'; exact Hc | rewrite Hf'; exact Hf]. }
  destruct (ongoingRequests _ !! _) as [p|].
  - assert (Hwait : forall h, cacheKey (h_request h) = cacheKey rq ->
      calm k c n (set_handlers
                    (handlers (set_arrivals (S (arrivals s)) s) ++ [h])
                    (set_arrivals (S (arrivals s)) s))).
    { intros h Hkey. destruct H as ([Hps Hhs] & Hc & Hf).
      split; [|split; assumption]. split; [exact Hps|].
      intros h' Hin Hshared. simpl in Hin.
      apply elem_of_app in Hin as [Hin|Hin]; [auto|].
      apply list_elem_of_singleton in Hin. subst h'. rewrite Hkey. exact Hne. }
    destruct (promises _ !! p) as [[x|r|e]|].
    + apply Hwait. reflexivity.
    + apply (Hkept (Fulfilled r)). reflexivity.
    + apply (Hkept (Rejected e)). reflexivity.
    + apply Hwait. reflexivity.
  - rewrite start_as_continue. apply Hkept. reflexivity.
Qed.

Lemma run_calm k c n (evs : list (Z * Event)) s :
  (forall t ev, (t, ev) ∈ evs -> t - timestamp c < CACHE_TTL) ->
  calm k c n s -> calm k c n (run evs s).
Proof.
  revert s. induction evs as [|[t ev] evs IH]; intros s Hlive H; simpl.
  - exact H.
  - apply IH.
    + intros t' ev' Hin. apply (Hlive t' ev'). right. exact Hin.
    + destruct ev as [rq|p o|p]; simpl.
      * apply POST_calm; [|exact H]. apply (Hlive t (Arrives rq)). left.
      * apply wake_calm, H.
      * apply wake_calm, H.
Qed.

Lemma fulfilled_replies r (ws : list Handler) s id :
  replies s !! id = Some (Json200 r) \/ id ∈ map h_id ws ->
  replies (foldl (fun s h => continue (Fulfilled r) h s) s ws) !! id
  = Some (Json200 r).
Proof.
  revert s. induction ws as [|h ws IH]; intros s H; simpl.
  - destruct H as [H|H]; [exact H | inversion H].
  - apply IH. simpl.
    destruct (decide (h_id h = id)) as [->|Hne].
    + left. apply lookup_insert_eq.
    + rewrite lookup_insert_ne by exact Hne.
      destruct H as [H|H]; [left; exact H|].
      simpl in H. apply elem_of_cons in H as [H|H]; [congruence | right; exact H].
Qed.

(** *** A second call within the cache window *)

Lemma cacheKey_agree (rq1 rq2 : Request) :
  task rq2 = task rq1 ->
  slice 100 (content rq2) = slice 100 (content rq1) ->
  slice 50 (prompt rq2) = slice 50 (prompt rq1) ->
  cacheKey rq2 = cacheKey rq1.
Proof. intros Ht Hc Hp. unfold cacheKey. rewrite Ht, Hc, Hp. reflexivity. Qed.

(** One call under way for a key. Let [rq1] and [rq2] agree on the task,
    on [content.slice(0, 100)] and on [prompt.slice(0, 50)]. Let the
    executor of promise [p], started for [rq1], be the only thing under
    way for their key, and let the provider's answer at time [now1] make
    it resolve with [r]. Then every handler that awaited [p] is answered
    with [r], and [r] is cached under the key at [now1]. After any further
    events that happen while the entry is less than ten minutes old, [rq2]
    arriving less than ten minutes after [now1] is answered with the same
    [r], adds nothing to the journal of network actions, and the key has
    had no [fetch] beyond those of the first call. *)
Lemma cached_result_is_served
    (st : Server) (rq1 rq2 : Request) (p : nat) (x : Executor)
    (o : FetchOutcome) (acts : list Action) (r : Result) (now1 now2 : Z)
    (mid : list (Z * Event)) :
  let k := cacheKey rq1 in
  let st1 := step now1 (FetchSettles p o) st in
  let st2 := run mid st1 in
  let st3 := step now2 (Arrives rq2) st2 in
  task rq2 = task rq1 ->
  slice 100 (content rq2) = slice 100 (content rq1) ->
  slice 50 (prompt rq2) = slice 50 (prompt rq1) ->
  promises st !! p = Some (Pending x) ->
  x_key x = k ->
  resume x (Fetched o) = (acts, Resolve r) ->
  (forall p' x', promises st !! p' = Some (Pending x') ->
                 x_key x' = k -> p' = p) ->
  (forall h, h ∈ handlers st -> h_await h = Shared ->
             cacheKey (h_request h) = k -> h_promise h = p) ->
  (forall t ev, (t, ev) ∈ mid -> t - now1 < CACHE_TTL) ->
  now2 - now1 < CACHE_TTL ->
  (forall h, h ∈ handlers st -> h_promise h = p ->
             replies st1 !! h_id h = Some (Json200 r))
  /\ responseCache st1 !! k = Some {| data := r; timestamp := now1 |}
  /\ replies st3 !! arrivals st2 = Some (Json200 r)
  /\ log st3 = log st2
  /\ fetches_for k (log st3) = fetches_for k (log st).
Proof.
  intros k st1 st2 st3 Htask Hcontent Hprompt Hp Hx Hres Honly Hwaiters
    Hmid Hlive.
  pose proof (cacheKey_agree rq1 rq2 Htask Hcontent Hprompt) as Hkey.
  fold k in Hkey.
  pose proof (resume_resolve_acts _ _ _ _ Hres) as ->.
  set (c := {| data := r; timestamp := now1 |}).
  set (stc := set_responseCache (<[k := c]> (responseCache st))
                (journal p k [] st)).
  assert (Est1 : st1 = settle p k (Fulfilled r) stc).
  { unfold st1, step, wake. rewrite Hp. unfold advance. rewrite Hres, Hx.
    reflexivity. }
  assert (Hcalm1 : calm k c (fetches_for k (log st)) st1).
  { rewrite Est1.
    destruct (settle_kept k p k (Fulfilled r) stc) as (Hq & Hc & Hf).
    - discriminate.
    - intros p' y Hne Hy Hk. apply Hne. eapply Honly; eassumption.
    - intros h Hin Hshared Hk. split; [auto | eauto].
    - split; [exact Hq|]. split.
      + rewrite Hc. simpl. apply lookup_insert_eq.
      + rewrite Hf. simpl. rewrite app_nil_r. reflexivity. }
  assert (Hcalm2 : calm k c (fetches_for k (log st)) st2).
  { apply run_calm; [exact Hmid | exact Hcalm1]. }
  assert (Est3 : st3 = reply (arrivals st2) (Json200 r)
                         (set_arrivals (S (arrivals st2)) st2)).
  { unfold st3, step, POST. simpl. rewrite Hkey.
    destruct Hcalm2 as (_ & -> & _).
    rewrite (cached_live now2 c Hlive). reflexivity. }
  split; [|split; [|split; [|split]]].
  - intros h Hin Hh. rewrite Est1, settle_unfold.
    apply fulfilled_replies. right.
    apply list_elem_of_fmap. exists h. split; [reflexivity|].
    apply list_elem_of_filter. split; [|exact Hin].
    unfold awaits. rewrite Hh. apply Nat.eqb_refl.
  - destruct Hcalm1 as (_ & Hc & _). exact Hc.
  - rewrite Est3. simpl. apply lookup_insert_eq.
  - rewrite Est3. reflexivity.
  - rewrite Est3. simpl. destruct Hcalm2 as (_ & _ & Hf). exact Hf.
Qed.

End RouteFacts.

(* ===================================================================== *)
(** ** Further facts about the quiz component *)
(* ===================================================================== *)

Section QuizSessions.
Import Js Quiz.

(** What the question card and the results card tell about the state
    they were rendered from. *)
Lemma render_question l e s n q a :
  render l e s = ViewQuestion n q a ->
  isQuizCompleted s = false /\ currentQuestion s = Some q
  /\ truthy q = true /\ a = isAnswered s
  /\ n = (currentQuestionIndex s + 1)%nat.
Proof.
  unfold render. destruct l; [discriminate|].
  destruct e as [[|c m]|]; try discriminate;
    destruct (currentQuestion s) as [q'|] eqn:Hq; simpl;
    destruct (isQuizCompleted s); simpl;
    try destruct (truthy q') eqn:Ht; simpl; try discriminate;
    intros [= <- <- <-]; repeat split; assumption.
Qed.

Lemma render_results l e s c t :
  render l e s = ViewResults c t ->
  isQuizCompleted s = true /\ c = score s /\ t = length (quiz s).
Proof.
  unfold render. destruct l; [discriminate|].
  destruct e as [[|ch m]|]; try discriminate;
    destruct (currentQuestion s) as [q'|] eqn:Hq; simpl;
    destruct (isQuizCompleted s); simpl;
    try destruct (truthy q') eqn:Ht; simpl; try discriminate;
    intros [= <- <-]; repeat split.
Qed.

Lemma in_step_press l e text s g : in_step s -> in_step (press l e text s g).1.
Proof.
  intros Hs. unfold press.
  destruct (offered l e s g) eqn:Hoff; [|exact Hs].
  unfold offered in Hoff.
  destruct (render l e s) as [| | |n q a| |] eqn:Hr; destruct g;
    try discriminate Hoff; try exact Hs.
  - (* an option of the question card *)
    apply render_question in Hr as (_ & Hq & _). rewrite Hq.
    destruct (option_at q i); [|exact Hs]. simpl.
    unfold handleOptionSelect. destruct (isAnswered s) eqn:Ha; [exact Hs|].
    destruct Hs as (H1 & H2 & H3 & H4). unfold in_step. simpl.
    rewrite Ha in *. auto.
  - (* "Check Answer" *)
    apply render_question in Hr as (Hc & Hq & Ht & -> & _).
    apply andb_prop in Hoff as [Ha Hsel].
    apply negb_true_iff in Ha.
    destruct Hs as (H1 & H2 & H3 & H4). rewrite Ha in H1.
    unfold checkAnswer. rewrite Hq.
    destruct (selectedOption s) as [sel|]; [|discriminate Hsel].
    simpl in Hsel. rewrite Hsel, Ht. simpl.
    unfold in_step. simpl. unfold currentQuestion in Hq.
    apply lookup_lt_Some in Hq. rewrite Hc.
    repeat split; try (intros; assumption || discriminate); auto.
    destruct (match default None (prop q "correctAnswer") with
              | Some answer => strict_eq sel answer
              | None => false
              end); lia.
  - (* "Next Question" or "See Results" *)
    apply render_question in Hr as (Hc & Hq & _ & -> & _).
    destruct Hs as (H1 & H2 & H3 & H4). rewrite Hoff in H1.
    unfold currentQuestion in Hq. apply lookup_lt_Some in Hq.
    unfold nextQuestion.
    destruct (Z.ltb_spec (Z.of_nat (currentQuestionIndex s))
                (Z.of_nat (length (quiz s)) - 1));
      unfold in_step; simpl.
    + rewrite Hc. repeat split; try discriminate; try lia.
    + rewrite Hoff. repeat split; auto.
  - (* "Restart Quiz" *)
    unfold in_step. simpl. repeat split; try discriminate; auto.
Qed.

Lemma in_step_onSuccess s data : in_step s -> in_step (onSuccess s data).1.1.
Proof.
  intros Hs. unfold onSuccess.
  destruct (valid_quiz data) as [[|]|]; simpl; try exact Hs.
  unfold in_step. simpl. repeat split; try discriminate; auto.
Qed.

Lemma in_step_session text inputs : in_step (session text inputs).
Proof.
  unfold session.
  assert (H0 : in_step initial).
  { unfold in_step. simpl. repeat split; try discriminate; auto. }
  revert H0. generalize initial.
  induction inputs as [|i inputs IH]; intros s Hs; simpl; [exact Hs|].
  apply IH. destruct i as [l e g|data]; simpl.
  - apply in_step_press, Hs.
  - apply in_step_onSuccess, Hs.
Qed.

(** X1: whatever the user pressed and whatever payloads arrived, the
    screen is consistent with the quiz. A results card shows a score that
    does not exceed the number of questions, and that number is not zero
    (so the accuracy is a percentage between 0 and 100); a question card
    shows a question of the quiz under its number, and the score so far
    does not exceed the number of questions already checked. *)
Theorem session_screen_consistent
    (studyText : string) (inputs : list Input)
    (isLoading : bool) (error : option string) :
  let s := session studyText inputs in
  (score s <= length (quiz s))%nat
  /\ match render isLoading error s with
     | ViewResults correct total =>
         (correct <= total)%nat /\ (0 < total)%nat
     | ViewQuestion number q answered =>
         (1 <= number <= length (quiz s))%nat
         /\ quiz s !! (number - 1)%nat = Some q
         /\ (score s <= number - (if answered then 0 else 1))%nat
     | _ => True
     end.
Proof.
  intros s. pose proof (in_step_session studyText inputs) as Hs.
  fold s in Hs. destruct Hs as (H1 & H2 & H3 & H4).
  assert (Hscore : (score s <= length (quiz s))%nat).
  { destruct (isAnswered s); [specialize (H2 eq_refl)|]; lia. }
  split; [exact Hscore|].
  destruct (render isLoading error s) as [| | |n q a|c t|] eqn:Hr; try exact I.
  - apply render_question in Hr as (_ & Hq & _ & -> & ->).
    unfold currentQuestion in Hq. pose proof (lookup_lt_Some _ _ _ Hq).
    replace (currentQuestionIndex s + 1 - 1)%nat
      with (currentQuestionIndex s) by lia.
    repeat split; try lia; try exact Hq.
    destruct (isAnswered s); lia.
  - apply render_results in Hr as (Hc & -> & ->).
    specialize (H2 (H3 Hc)). split; lia.
Qed.

(** X2: selecting an option of the current, not yet answered question
    and checking it marks the question answered and raises the score by
    exactly one when the option is strictly equal to [correctAnswer], and
    by nothing otherwise; five points are awarded in the first case
    only. Nothing else changes. *)
Theorem select_then_check (s : QuizState) (q o : Json) :
  isAnswered s = false ->
  currentQuestion s = Some q ->
  truthy q = true ->
  truthy o = true ->
  checkAnswer (handleOptionSelect s o)
  = ({| quiz := quiz s;
        currentQuestionIndex := currentQuestionIndex s;
        selectedOption := Some o;
        isAnswered := true;
        score := if is_right q o then (score s + 1)%nat else score s;
        isQuizCompleted := isQuizCompleted s |},
     if is_right q o then [AddPoints 5 "Correct quiz answer"] else []).
Proof.
  intros Ha Hq Htq Hto.
  unfold handleOptionSelect. rewrite Ha.
  unfold checkAnswer, currentQuestion in *. simpl. rewrite Hq, Hto, Htq.
  reflexivity.
Qed.

Lemma select_then_check_witness :
  currentQuestion (fresh five_questions)
  = Some (question_of "q1" ["A"; "B"; "C"; "D"] "B")
  /\ score (checkAnswer (handleOptionSelect (fresh five_questions) (JStr "B"))).1
     = 1%nat
  /\ score (checkAnswer (handleOptionSelect (fresh five_questions) (JStr "C"))).1
     = 0%nat.
Proof.
  split; [reflexivity|]. split.
  - rewrite (select_then_check (fresh five_questions)
               (question_of "q1" ["A"; "B"; "C"; "D"] "B") (JStr "B")
               eq_refl eq_refl eq_refl eq_refl).
    reflexivity.
  - rewrite (select_then_check (fresh five_questions)
               (question_of "q1" ["A"; "B"; "C"; "D"] "B") (JStr "C")
               eq_refl eq_refl eq_refl eq_refl).
    reflexivity.
Defined.

Lemma one_round (pre post : list Json) (q c : Json) (k : nat)
    (sel : option Json) :
  truthy q = true -> truthy c = true ->
  (nextQuestion
     (checkAnswer
        (handleOptionSelect
           {| quiz := pre ++ q :: post; currentQuestionIndex := length pre;
              selectedOption := sel; isAnswered := false; score := k;
              isQuizCompleted := false |} c)).1).1
  = match post with
    | [] =>
        {| quiz := pre ++ q :: post; currentQuestionIndex := length pre;
           selectedOption := Some c; isAnswered := true;
           score := if is_right q c then (k + 1)%nat else k;
           isQuizCompleted := true |}
    | _ :: _ =>
        {| quiz := pre ++ q :: post;
           currentQuestionIndex := (length pre + 1)%nat;
           selectedOption := None; isAnswered := false;
           score := if is_right q c then (k + 1)%nat else k;
           isQuizCompleted := false |}
    end.
Proof.
  intros Hq Hc.
  unfold handleOptionSelect. cbn [isAnswered].
  unfold checkAnswer, currentQuestion.
  cbn [selectedOption quiz currentQuestionIndex score isAnswered
       isQuizCompleted].
  rewrite list_lookup_middle by reflexivity. rewrite Hc, Hq.
  cbn [negb orb fst]. fold (is_right q c).
  unfold nextQuestion.
  cbn [selectedOption quiz currentQuestionIndex score isAnswered
       isQuizCompleted fst].
  rewrite length_app. cbn [length].
  destruct post as [|q' post']; cbn [length].
  - destruct (Z.ltb_spec (Z.of_nat (length pre))
                (Z.of_nat (length pre + 1) - 1)); [lia|reflexivity].
  - destruct (Z.ltb_spec (Z.of_nat (length pre))
                (Z.of_nat (length pre + S (S (length post'))) - 1));
      [reflexivity|lia].
Qed.

Lemma take_quiz_from (post pre choices : list Json) (k : nat)
    (sel : option Json) :
  post <> [] ->
  length choices = length post ->
  Forall (fun q => truthy q = true) post ->
  Forall (fun c => truthy c = true) choices ->
  exists last,
    take_quiz choices
      {| quiz := pre ++ post; currentQuestionIndex := length pre;
         selectedOption := sel; isAnswered := false; score := k;
         isQuizCompleted := false |}
    = {| quiz := pre ++ post;
         currentQuestionIndex := (length pre + length post - 1)%nat;
         selectedOption := Some last; isAnswered := true;
         score := (k + marks post choices)%nat;
         isQuizCompleted := true |}.
Proof.
  revert pre choices k sel.
  induction post as [|q post IH]; intros pre choices k sel Hne Hlen Hqs Hcs;
    [congruence|].
  destruct choices as [|c cs]; [discriminate|].
  injection Hlen as Hlen.
  apply Forall_cons in Hqs as [Hq Hqs]. apply Forall_cons in Hcs as [Hc Hcs].
  unfold take_quiz. cbn [foldl]. rewrite (one_round _ _ _ _ _ _ Hq Hc).
  destruct post as [|q' post'].
  - destruct cs; [|discriminate]. exists c. cbn [foldl marks length].
    f_equal; try lia. destruct (is_right q c); lia.
  - destruct (IH (pre ++ [q]) cs
                (if is_right q c then (k + 1)%nat else k) None)
      as (last & Hlast); [discriminate | exact Hlen | exact Hqs | exact Hcs |].
    exists last. unfold take_quiz in Hlast.
    rewrite <- app_assoc, length_app in Hlast. cbn [length app] in Hlast.
    rewrite Hlast. cbn [marks length].
    f_equal; try lia. destruct (is_right q c); lia.
Qed.

(** X3: taking a whole quiz. On a quiz of at least one question, all
    truthy (as every accepted question is), selecting one truthy option
    per question, checking it and moving on ends on the results with the
    quiz unchanged and a score equal to the number of choices that were
    the right answer of their question. *)
Theorem take_quiz_marks (qs choices : list Json) :
  qs <> [] ->
  length choices = length qs ->
  Forall (fun q => truthy q = true) qs ->
  Forall (fun c => truthy c = true) choices ->
  quiz (take_quiz choices (fresh qs)) = qs
  /\ score (take_quiz choices (fresh qs)) = marks qs choices
  /\ isQuizCompleted (take_quiz choices (fresh qs)) = true
  /\ render false None (take_quiz choices (fresh qs))
     = ViewResults (marks qs choices) (length qs).
Proof.
  intros Hne Hlen Hqs Hcs.
  destruct (take_quiz_from qs [] choices 0 None Hne Hlen Hqs Hcs)
    as (last & H).
  change (take_quiz choices (fresh qs))
    with (take_quiz choices
            {| quiz := [] ++ qs; currentQuestionIndex := length (@nil Json);
               selectedOption := None; isAnswered := false; score := 0;
               isQuizCompleted := false |}).
  rewrite H. cbn [quiz score isQuizCompleted app Nat.add].
  repeat split.
  unfold render, currentQuestion.
  cbn [quiz score isQuizCompleted currentQuestionIndex length Nat.add].
  destruct (qs !! _) as [q'|]; simpl; [destruct (truthy q')|]; reflexivity.
Qed.

Lemma take_quiz_marks_witness :
  five_questions <> []
  /\ score (take_quiz [JStr "B"; JStr "C"; JStr "B"; JStr "B"; JStr "A"]
              (fresh five_questions)) = 3%nat.
Proof.
  split; [discriminate|].
  destruct (take_quiz_marks five_questions
              [JStr "B"; JStr "C"; JStr "B"; JStr "B"; JStr "A"])
    as (_ & H & _).
  - discriminate.
  - reflexivity.
  - repeat constructor.
  - repeat constructor.
  - exact H.
Defined.

End QuizSessions.

(* ===================================================================== *)
(** ** Further facts about the route *)
(* ===================================================================== *)

Section RouteRuns.
Import Js Route.

(** *** The cache key *)

Lemma substring_prefix (n : nat) (a b : string) :
  (n <= String.length a)%nat ->
  substring 0 n (a +:+ b) = substring 0 n a.
Proof.
  revert n. induction a as [|c a IH]; intros n Hn; simpl in *.
  - assert (n = 0%nat) as -> by lia. destruct b; reflexivity.
  - destruct n as [|n]; [reflexivity|]. simpl. rewrite IH by lia. reflexivity.
Qed.

(** X4: the key looks at the first 100 characters of the content and the
    first 50 of the prompt and at nothing after them. Two requests for the
    same task have the same key, and so share cache entries and ongoing
    requests, whenever their contents are equal (both may be absent) or
    differ only after the first 100 characters, and their prompts are
    equal (both may be absent) or differ only after the first 50. *)
Theorem cacheKey_ignores_tails (rq1 rq2 : Request) :
  task rq1 = task rq2 ->
  same_prefix 100 (content rq1) (content rq2) ->
  same_prefix 50 (prompt rq1) (prompt rq2) ->
  cacheKey rq1 = cacheKey rq2.
Proof.
  assert (Hslice : forall n a b, same_prefix n a b -> slice n a = slice n b).
  { intros n a b [->|(c & ta & tb & Hc & -> & ->)]; [reflexivity|].
    unfold slice. simpl. rewrite !(substring_prefix n c) by exact Hc.
    reflexivity. }
  intros Ht Hc Hp. unfold cacheKey.
  rewrite Ht, (Hslice _ _ _ Hc), (Hslice _ _ _ Hp). reflexivity.
Qed.

Lemma cacheKey_ignores_tails_witness :
  same_prefix 100 (content long_content_a) (content long_content_b)
  /\ same_prefix 50 (prompt long_content_a) (prompt long_content_b)
  /\ content long_content_a <> content long_content_b
  /\ cacheKey long_content_a = cacheKey long_content_b.
Proof.
  assert (Hc : same_prefix 100 (content long_content_a)
                 (content long_content_b)).
  { right. exists hundred, " mitosis", " meiosis".
    split; [vm_compute; lia | split; reflexivity]. }
  assert (Hp : same_prefix 50 (prompt long_content_a) (prompt long_content_b))
    by (left; reflexivity).
  split; [exact Hc|]. split; [exact Hp|]. split; [discriminate|].
  apply (cacheKey_ignores_tails long_content_a long_content_b eq_refl Hc Hp).
Defined.

(** *** The upstream caller *)

Lemma play_app (ws1 ws2 : list Wake) (x : Executor) :
  play (ws1 ++ ws2) x
  = match play ws1 x with
    | (acts, Suspend x') =>
        let '(acts', out) := play ws2 x' in (acts ++ acts', out)
    | done => done
    end.
Proof.
  revert x. induction ws1 as [|w ws1 IH]; intros x; simpl.
  - destruct (play ws2 x). reflexivity.
  - destruct (resume x w) as [acts [x'| |]]; try reflexivity.
    rewrite IH. destruct (play ws1 x') as [acts1 [x1| |]]; try reflexivity.
    destruct (play ws2 x1). rewrite app_assoc. reflexivity.
Qed.

Lemma loop_round (x : Executor) :
  match loop x with
  | (_, Suspend x') =>
      x_stage x' = AwaitFetch /\ retryCount x' = retryCount x
      /\ retryCount x' < maxRetries
  | _ => True
  end.
Proof.
  unfold loop. destruct (Z.ltb_spec (retryCount x) maxRetries).
  - simpl. auto.
  - destruct (after_loop_settles x) as (out & -> & Hout).
    destruct out; try exact I. exfalso. eapply Hout. reflexivity.
Qed.

(** One answer and the timer it may start: either the executor has come
    to an end, or it has issued the next [fetch] with one more retry
    counted, still below the ceiling. *)
Lemma answer_round (o : FetchOutcome) (x : Executor) :
  x_stage x = AwaitFetch ->
  match play [Fetched o; TimerFired] x with
  | (_, Suspend x') =>
      x_stage x' = AwaitFetch /\ retryCount x' = retryCount x + 1
      /\ retryCount x' < maxRetries
  | _ => True
  end.
Proof.
  intros Hx.
  assert (Hcatch : forall m y, retryCount y = retryCount x ->
    match catch m y with
    | (_, Suspend x1) =>
        match resume x1 TimerFired with
        | (_, Suspend x') =>
            x_stage x' = AwaitFetch /\ retryCount x' = retryCount x + 1
            /\ retryCount x' < maxRetries
        | _ => True
        end
    | _ => True
    end).
  { intros m y Hy. unfold catch. simpl.
    destruct (Z.geb_spec (retryCount y + 1) maxRetries); [exact I|].
    unfold resume. simpl.
    pose proof (loop_round
      (at_stage BackoffCatch (with_retryCount (retryCount y + 1) y))) as HL.
    destruct (loop _) as [acts [x'| |]]; try exact I.
    simpl in HL. rewrite <- Hy. exact HL. }
  assert (Hplay : forall first,
    match first with
    | (_, Suspend x1) =>
        match resume x1 TimerFired with
        | (_, Suspend x') =>
            x_stage x' = AwaitFetch /\ retryCount x' = retryCount x + 1
            /\ retryCount x' < maxRetries
        | _ => True
        end
    | _ => True
    end ->
    resume x (Fetched o) = first ->
    match play [Fetched o; TimerFired] x with
    | (_, Suspend x') =>
        x_stage x' = AwaitFetch /\ retryCount x' = retryCount x + 1
        /\ retryCount x' < maxRetries
    | _ => True
    end).
  { intros [acts out] H E. simpl. rewrite E.
    destruct out as [x1| |]; try exact I.
    destruct (resume x1 TimerFired) as [acts' [x'| |]]; try exact I.
    exact H. }
  apply (Hplay (resume x (Fetched o))); [|reflexivity].
  unfold resume. rewrite Hx.
  destruct o as [m|r].
  - apply Hcatch. reflexivity.
  - destruct (ok r).
    + destruct (after_loop_settles (with_response r x)) as (out' & E' & Hout).
      rewrite E'. destruct out'; try exact I. exfalso. eapply Hout. reflexivity.
    + destruct (body r) as [d|m].
      * destruct (status r =? 429); [|exact I].
        unfold resume. simpl.
        pose proof (loop_round
          (with_retryCount (retryCount x + 1)
             (at_stage Backoff429 (with_response r x)))) as HL.
        destruct (loop _) as [acts' [x'| |]]; try exact I.
        exact HL.
      * apply Hcatch. reflexivity.
Qed.

(** X5: the upstream caller comes to an end. Whatever the provider
    answers to the first, second and third [fetch] (a response of any
    status and body, or an exception), once each answer and the timer it
    may have started have been delivered the promise is resolved or
    rejected: there is no fourth wait. *)
Theorem three_answers_settle
    (key : string) (call : Call) (o1 o2 o3 : FetchOutcome) :
  settled (upstream key call
             [Fetched o1; TimerFired; Fetched o2; TimerFired;
              Fetched o3; TimerFired]).2 = true.
Proof.
  unfold upstream.
  change [Fetched o1; TimerFired; Fetched o2; TimerFired;
          Fetched o3; TimerFired]
    with ([Fetched o1; TimerFired]
          ++ [Fetched o2; TimerFired] ++ [Fetched o3; TimerFired]).
  rewrite play_app.
  pose proof (answer_round o1 (first_attempt key call) eq_refl) as H1.
  destruct (play [Fetched o1; TimerFired] _) as [a1 [x1| |]];
    try reflexivity.
  destruct H1 as (S1 & R1 & _).
  rewrite play_app.
  pose proof (answer_round o2 x1 S1) as H2.
  destruct (play [Fetched o2; TimerFired] x1) as [a2 [x2| |]];
    try reflexivity.
  destruct H2 as (S2 & R2 & _).
  pose proof (answer_round o3 x2 S2) as H3.
  destruct (play [Fetched o3; TimerFired] x2) as [a3 [x3| |]];
    try reflexivity.
  destruct H3 as (_ & R3 & L3). exfalso.
  simpl in R1. unfold maxRetries in L3. lia.
Qed.

(** X6: what a 200 answer yields. With an empty [choices] array there is
    no first completion and the promise is rejected as an internal error;
    otherwise the result is the [content] of the first choice's message,
    the other choices are not looked at, and a message without [content]
    still resolves the promise, with a result that has no value. *)
Theorem first_completion_only
    (x : Executor) (r : Response) (data : Json) (items : list Json) :
  x_stage x = AwaitFetch ->
  ok r = true ->
  body r = Parsed data ->
  prop data "choices" = Some (Some (JArr items)) ->
  match items with
  | [] =>
      resume x (Fetched (FetchResponds r))
      = ([], Reject (InternalError type_error))
  | first :: _ =>
      forall message,
        prop first "message" = Some (Some (JObj message)) ->
        resume x (Fetched (FetchResponds r))
        = ([], Resolve {| result := own "content" message |})
  end.
Proof.
  intros Hx Hok Hbody Hchoices.
  assert (E : resume x (Fetched (FetchResponds r)) = ([], complete r)).
  { unfold resume. rewrite Hx, Hok. unfold after_loop. simpl.
    rewrite Hok. reflexivity. }
  rewrite E. unfold complete, first_content. rewrite Hbody, Hchoices. simpl.
  destruct items as [|first rest]; simpl; [reflexivity|].
  intros message Hm. rewrite Hm. simpl. reflexivity.
Qed.

Lemma first_completion_only_witness :
  ok (completion "summary") = true
  /\ resume (first_attempt "k" sample_call)
       (Fetched (FetchResponds (completion "summary")))
     = ([], Resolve {| result := Some (JStr "summary") |}).
Proof.
  split; [reflexivity|].
  apply (first_completion_only (first_attempt "k" sample_call)
           (completion "summary") _
           [JObj [("message", JObj [("content", JStr "summary")])]]
           eq_refl eq_refl eq_refl eq_refl
           [("content", JStr "summary")] eq_refl).
Defined.

(** *** The response cache *)

Lemma settle_responseCache p key v st :
  responseCache (settle p key v st) = responseCache st.
Proof.
  rewrite settle_unfold.
  apply (foldl_continue_ind (fun s => responseCache s = responseCache st)).
  - reflexivity.
  - intros s h _ Hs. rewrite continue_responseCache. exact Hs.
Qed.

Lemma POST_responseCache now rq st :
  responseCache (POST now rq st) = responseCache st.
Proof.
  unfold POST. destruct (cached now _); [reflexivity|].
  destruct (ongoingRequests _ !! _) as [p|].
  - destruct (promises _ !! p) as [[x|r|e]|]; try reflexivity.
    rewrite continue_responseCache. reflexivity.
  - rewrite start_responseCache. reflexivity.
Qed.

(** X7: only a resolved promise writes the cache. The arrival of a
    request never changes it; the wake-up of an executor changes it only
    when the executor resolves its promise, and then by exactly one entry,
    the result under the executor's key with the current time. A rejected
    or still pending call leaves the cache as it was, and no event ever
    removes a key: the cache only grows. *)
Theorem cache_written_on_success_only
    (now : Z) (ev : Event) (rq : Request) (p : nat) (w : Wake) (st : Server) :
  responseCache (POST now rq st) = responseCache st
  /\ responseCache (wake now p w st)
     = match promises st !! p with
       | Some (Pending x) =>
           match (resume x w).2 with
           | Resolve r =>
               <[x_key x := {| data := r; timestamp := now |}]>
                 (responseCache st)
           | _ => responseCache st
           end
       | _ => responseCache st
       end
  /\ dom (responseCache st) ⊆ dom (responseCache (step now ev st)).
Proof.
  assert (Hwake : forall q v,
    responseCache (wake now q v st)
    = match promises st !! q with
      | Some (Pending x) =>
          match (resume x v).2 with
          | Resolve r =>
              <[x_key x := {| data := r; timestamp := now |}]>
                (responseCache st)
          | _ => responseCache st
          end
      | _ => responseCache st
      end).
  { intros q v. unfold wake.
    destruct (promises st !! q) as [[x|r|e]|]; try reflexivity.
    unfold advance. destruct (resume x v) as [acts [x'|r|e]]; simpl.
    - reflexivity.
    - rewrite settle_responseCache. reflexivity.
    - rewrite settle_responseCache. reflexivity. }
  assert (Hgrow : forall q v,
    dom (responseCache st) ⊆ dom (responseCache (wake now q v st))).
  { intros q v. rewrite Hwake.
    destruct (promises st !! q) as [[x|r|e]|]; try reflexivity.
    destruct (resume x v).2; try reflexivity.
    rewrite dom_insert_L. set_solver. }
  split; [apply POST_responseCache|]. split; [apply Hwake|].
  destruct ev as [rq'|q o|q]; simpl.
  - rewrite POST_responseCache. reflexivity.
  - apply Hgrow.
  - apply Hgrow.
Qed.

(** X8: the ten-minute window is half open. With an entry for its key in
    the cache, a request of a recognized task that finds nothing ongoing
    is answered from the cache while the entry is younger than 600000 ms,
    with nothing journalled; from an age of exactly 600000 ms on it is
    not answered yet, a [fetch] is issued for it, and the old entry stays
    in the cache until that call succeeds. *)
Theorem cache_window
    (now : Z) (rq : Request) (st : Server) (c : CacheEntry) (call : Call) :
  responseCache st !! cacheKey rq = Some c ->
  ongoingRequests st !! cacheKey rq = None ->
  select rq = Some call ->
  CACHE_TTL = 600000
  /\ if now - timestamp c <? 600000
     then replies (POST now rq st) !! arrivals st = Some (Json200 (data c))
          /\ log (POST now rq st) = log st
          /\ promises (POST now rq st) = promises st
     else replies (POST now rq st) !! arrivals st = replies st !! arrivals st
          /\ log (POST now rq st)
             = log st ++ [{| e_promise := length (promises st);
                             e_key := cacheKey rq;
                             e_action := Fetch call |}]
          /\ ongoingRequests (POST now rq st) !! cacheKey rq
             = Some (length (promises st))
          /\ responseCache (POST now rq st) !! cacheKey rq = Some c.
Proof.
  intros Hc Ho Hsel. split; [reflexivity|].
  unfold POST. simpl. rewrite Hc. unfold cached.
  change CACHE_TTL with 600000.
  destruct (now - timestamp c <? 600000).
  - simpl. rewrite lookup_insert_eq. repeat split.
  - rewrite Ho, (start_recognized _ _ _ _ Hsel). simpl.
    rewrite lookup_insert_eq. repeat split. exact Hc.
Qed.

Lemma cache_window_witness :
  let st := run [(0, Arrives summarize_cells);
                 (5, FetchSettles 0 (FetchResponds (completion "summary")))]
              init in
  ongoingRequests st !! cacheKey summarize_cells = None
  /\ replies (POST 600004 summarize_cells st) !! 1%nat
     = Some (Json200 {| result := Some (JStr "summary") |})
  /\ replies (POST 600005 summarize_cells st) !! 1%nat = None.
Proof.
  split; [vm_compute; reflexivity|].
  set (st := run [(0, Arrives summarize_cells);
                  (5, FetchSettles 0 (FetchResponds (completion "summary")))]
               init).
  pose proof (cache_window 600004 summarize_cells st
                {| data := {| result := Some (JStr "summary") |};
                   timestamp := 5 |}
                (default sample_call (select summarize_cells))
                eq_refl eq_refl eq_refl) as [_ Hin].
  pose proof (cache_window 600005 summarize_cells st
                {| data := {| result := Some (JStr "summary") |};
                   timestamp := 5 |}
                (default sample_call (select summarize_cells))
                eq_refl eq_refl eq_refl) as [_ Hout].
  split; [exact (proj1 Hin) | exact (proj1 Hout)].
Defined.

(** *** Failures at the HTTP boundary *)

Lemma rejected_replies e (ws : list Handler) s id :
  replies s !! id = Some (Error500 object_Object)
  \/ (exists h, h ∈ ws /\ h_id h = id /\ h_await h = Own) ->
  replies (foldl (fun s h => continue (Rejected e) h s) s ws) !! id
  = Some (Error500 object_Object).
Proof.
  revert s. induction ws as [|h ws IH]; intros s H; simpl.
  - destruct H as [H|(h & Hin & _)]; [exact H | inversion Hin].
  - apply IH.
    destruct H as [H|(h' & Hin & Hid & Hown)].
    + left. destruct (h_await h).
      * unfold start. destruct (select (h_request h)); simpl; [exact H|].
        destruct (decide (h_id h = id)) as [->|Hne];
          [apply lookup_insert_eq | rewrite lookup_insert_ne by exact Hne;
                                   exact H].
      * simpl. destruct (decide (h_id h = id)) as [->|Hne];
          [apply lookup_insert_eq | rewrite lookup_insert_ne by exact Hne;
                                   exact H].
    + apply elem_of_cons in Hin as [->|Hin].
      * left. rewrite Hown. simpl. rewrite Hid. apply lookup_insert_eq.
      * right. exists h'. auto.
Qed.

(** X9: every failure of an upstream call looks the same to the client.
    Whatever the executor rejects its promise with (the provider's status
    and error body, a network error, exhausted attempts, an internal
    error), the request that owns the promise is answered with the 500 of
    the outer [catch], whose [details] is the text "[object Object]":
    neither the kind of failure nor its details reach the client. *)
Theorem failures_look_alike
    (now : Z) (p : nat) (w : Wake) (st : Server) (x : Executor)
    (acts : list Action) (e : Rejection) (h : Handler) :
  promises st !! p = Some (Pending x) ->
  resume x w = (acts, Reject e) ->
  h ∈ handlers st ->
  h_promise h = p ->
  h_await h = Own ->
  replies (wake now p w st) !! h_id h = Some (Error500 object_Object).
Proof.
  intros Hp Hres Hin Hh Hown.
  unfold wake. rewrite Hp. unfold advance. rewrite Hres.
  rewrite settle_unfold. apply rejected_replies. right.
  exists h. split; [|auto].
  apply list_elem_of_filter. split; [|exact Hin].
  unfold awaits. rewrite Hh. apply Nat.eqb_refl.
Qed.

Lemma failures_look_alike_witness :
  let st := run [(0, Arrives summarize_cells)] init in
  resume (first_attempt (cacheKey summarize_cells)
            (default sample_call (select summarize_cells)))
    (Fetched (FetchResponds server_error))
  = ([], Reject (UpstreamError (JObj [("message", JStr "boom")]) 500))
  /\ replies (wake 3 0 (Fetched (FetchResponds server_error)) st) !! 0%nat
     = Some (Error500 object_Object).
Proof.
  split; [reflexivity|].
  apply (failures_look_alike 3 0 (Fetched (FetchResponds server_error))
           (run [(0, Arrives summarize_cells)] init)
           (first_attempt (cacheKey summarize_cells)
              (default sample_call (select summarize_cells)))
           [] (UpstreamError (JObj [("message", JStr "boom")]) 500)
           {| h_id := 0; h_request := summarize_cells; h_promise := 0;
              h_await := Own |});
    try reflexivity.
  apply list_elem_of_singleton. reflexivity.
Defined.

(** *** Nobody waits for a settled promise *)

Lemma start_sound id rq st : sound st -> sound (start id rq st).
Proof.
  intros [Hhs Hos]. unfold start. destruct (select rq) as [call|]; split; simpl.
  - intros h Hin. apply elem_of_app in Hin as [Hin|Hin].
    + destruct (Hhs h Hin) as [x Hx]. exists x.
      apply lookup_app_l_Some. exact Hx.
    + apply list_elem_of_singleton in Hin. subst h. simpl.
      eexists. apply list_lookup_middle. reflexivity.
  - intros k p Hk.
    destruct (decide (cacheKey rq = k)) as [<-|Hne].
    + rewrite lookup_insert_eq in Hk. injection Hk as <-. left.
      eexists. split; [apply list_lookup_middle; reflexivity | reflexivity].
    + rewrite lookup_insert_ne in Hk by exact Hne.
      destruct (Hos k p Hk) as [(x & Hx & Hkey)|Hx].
      * left. exists x. split; [apply lookup_app_l_Some, Hx | exact Hkey].
      * right. apply lookup_app_l_Some, Hx.
  - intros h Hin. destruct (Hhs h Hin) as [x Hx]. exists x.
    apply lookup_app_l_Some. exact Hx.
  - intros k p Hk.
    destruct (decide (cacheKey rq = k)) as [<-|Hne].
    + rewrite lookup_insert_eq in Hk. injection Hk as <-. right.
      apply list_lookup_middle. reflexivity.
    + rewrite lookup_insert_ne, lookup_delete_ne in Hk by exact Hne.
      destruct (Hos k p Hk) as [(x & Hx & Hkey)|Hx].
      * left. exists x. split; [apply lookup_app_l_Some, Hx | exact Hkey].
      * right. apply lookup_app_l_Some, Hx.
Qed.

Lemma continue_sound v h st : sound st -> sound (continue v h st).
Proof.
  intros H. unfold continue. destruct v as [x|r|e]; try exact H.
  destruct (h_await h); [apply start_sound, H | exact H].
Qed.

Lemma settle_sound p x v st :
  promises st !! p = Some (Pending x) ->
  (forall y, v <> Pending y) ->
  sound st -> sound (settle p (x_key x) v st).
Proof.
  intros Hp Hv [Hhs Hos]. rewrite settle_unfold.
  apply (foldl_continue_ind sound).
  - split; simpl.
    + intros h Hin. apply list_elem_of_filter in Hin as [Hnot Hin].
      destruct (Hhs h Hin) as [y Hy]. exists y.
      rewrite list_lookup_insert_ne; [exact Hy|].
      unfold awaits in Hnot. apply Nat.eqb_neq in Hnot. congruence.
    + intros k q Hk.
      destruct (decide (x_key x = k)) as [<-|Hne];
        [rewrite lookup_delete_eq in Hk; discriminate|].
      rewrite lookup_delete_ne in Hk by exact Hne.
      assert (Hq : q <> p).
      { intros ->. destruct (Hos k p Hk) as [(y & Hy & Hkey)|Hy];
          rewrite Hp in Hy; [|discriminate].
        injection Hy as <-. congruence. }
      rewrite list_lookup_insert_ne by congruence.
      apply Hos, Hk.
  - intros s h _ Hs. apply continue_sound, Hs.
Qed.

Lemma wake_sound now p w st : sound st -> sound (wake now p w st).
Proof.
  intros H. unfold wake.
  destruct (promises st !! p) as [[x|r|e]|] eqn:Hp; try exact H.
  unfold advance. destruct (resume x w) as [acts [x'|r|e]] eqn:Hres.
  - destruct H as [Hhs Hos]. split; simpl.
    + intros h Hin. destruct (Hhs h Hin) as [y Hy].
      destruct (decide (h_promise h = p)) as [->|Hne].
      * exists x'. apply list_lookup_insert_eq. eapply lookup_lt_Some, Hp.
      * exists y. rewrite list_lookup_insert_ne by congruence. exact Hy.
    + intros k q Hk. destruct (decide (q = p)) as [->|Hne].
      * left. exists x'. split.
        -- apply list_lookup_insert_eq. eapply lookup_lt_Some, Hp.
        -- rewrite (resume_key _ _ _ _ Hres).
           destruct (Hos k p Hk) as [(y & Hy & Hkey)|Hy];
             rewrite Hp in Hy; [|discriminate].
           injection Hy as <-. exact Hkey.
      * rewrite list_lookup_insert_ne by congruence. apply Hos, Hk.
  - apply (settle_sound p x (Fulfilled r)); [exact Hp | discriminate | exact H].
  - apply (settle_sound p x (Rejected e)); [exact Hp | discriminate | exact H].
Qed.

Lemma POST_sound now rq st : sound st -> sound (POST now rq st).
Proof.
  intros H. unfold POST.
  destruct (cached now _); [exact H|].
  destruct (ongoingRequests _ !! _) as [p|] eqn:Ho.
  - destruct (promises _ !! p) as [[x|r|e]|] eqn:Hp.
    + destruct H as [Hhs Hos]. split; [|exact Hos].
      intros h Hin. simpl in Hin. apply elem_of_app in Hin as [Hin|Hin].
      * apply Hhs, Hin.
      * apply list_elem_of_singleton in Hin. subst h. exists x. exact Hp.
    + exact H.
    + apply (continue_sound (Rejected e)). exact H.
    + exfalso. destruct H as [_ Hos].
      destruct (Hos _ _ Ho) as [(y & Hy & _)|Hy]; simpl in Hp;
        rewrite Hp in Hy; discriminate.
  - apply start_sound. exact H.
Qed.

Lemma init_sound : sound init.
Proof.
  split.
  - intros h Hin. inversion Hin.
  - intros k p Hk. simpl in Hk. rewrite lookup_empty in Hk. discriminate.
Qed.

Lemma run_sound (evs : list (Z * Event)) : sound (run evs init).
Proof.
  unfold run. generalize init_sound. generalize init.
  induction evs as [|[now ev] evs IH]; intros st H; simpl; [exact H|].
  apply IH. destruct ev as [rq|p o|p]; simpl.
  - apply POST_sound, H.
  - apply wake_sound, H.
  - apply wake_sound, H.
Qed.

(** X10: in every state the route can reach, each suspended handler
    awaits a promise that is still pending, so it is woken when that
    promise settles and no request waits for ever on a promise that is
    already settled; and each key among the ongoing requests points at a
    pending promise made for that key, or else at the rejected promise of
    an unrecognized task: no fulfilled promise and no other failure stays
    behind in the map. *)
Theorem reachable_sound (evs : list (Z * Event)) : sound (run evs init).
Proof. apply run_sound. Qed.

(** *** Three attempts per call, in every run *)

Lemma fetches_by_app p (l1 l2 : list Entry) :
  fetches_by p (l1 ++ l2) = (fetches_by p l1 + fetches_by p l2)%nat.
Proof. unfold fetches_by. rewrite filter_app, length_app. reflexivity. Qed.

Lemma fetches_by_journal p q key (acts : list Action) :
  fetches_by p (map (Build_Entry q key) acts)
  = if decide (q = p) then attempts acts else 0%nat.
Proof.
  unfold fetches_by, attempts. induction acts as [|a acts IH]; simpl.
  - destruct (decide (q = p)); reflexivity.
  - destruct (decide (q = p)) as [->|Hne].
    + destruct (is_fetch a) eqn:Ha.
      * rewrite !filter_cons_True by (simpl; auto). simpl. rewrite IH.
        reflexivity.
      * rewrite !filter_cons_False; [exact IH | congruence |].
        simpl. intros [_ E]. congruence.
    + rewrite filter_cons_False; [exact IH|]. simpl. intros [E _]. congruence.
Qed.

Lemma budgeted_ext s s' :
  promises s' = promises s -> log s' = log s -> budgeted s -> budgeted s'.
Proof. intros Hp Hl H q. unfold budgeted in H. rewrite Hp, Hl. apply H. Qed.

Lemma start_budgeted id rq st : budgeted st -> budgeted (start id rq st).
Proof.
  intros H q. specialize (H q). unfold start.
  destruct (select rq) as [call|]; simpl.
  - rewrite fetches_by_app.
    pose proof (fetches_by_journal q (length (promises st)) (cacheKey rq)
                  [Fetch call]) as Hj.
    simpl in Hj. rewrite Hj. clear Hj.
    destruct (decide (length (promises st) = q)) as [<-|Hne].
    + rewrite lookup_ge_None_2 in H by lia.
      rewrite list_lookup_middle by reflexivity. rewrite H.
      change (attempts [Fetch call]) with 1%nat.
      change (remaining (first_attempt (cacheKey rq) call)) with 2%nat. lia.
    + destruct (promises st !! q) as [v|] eqn:Hq.
      * rewrite (lookup_app_l_Some _ _ _ _ Hq).
        destruct v; lia.
      * apply lookup_ge_None in Hq.
        rewrite lookup_ge_None_2 by (rewrite length_app; simpl; lia). lia.
  - destruct (decide (length (promises st) = q)) as [<-|Hne].
    + rewrite lookup_ge_None_2 in H by lia.
      rewrite list_lookup_middle by reflexivity. lia.
    + destruct (promises st !! q) as [v|] eqn:Hq.
      * rewrite (lookup_app_l_Some _ _ _ _ Hq). exact H.
      * apply lookup_ge_None in Hq.
        rewrite lookup_ge_None_2 by (rewrite length_app; simpl; lia).
        exact H.
Qed.

Lemma continue_budgeted v h st : budgeted st -> budgeted (continue v h st).
Proof.
  intros H. unfold continue. destruct v as [x|r|e]; try exact H.
  destruct (h_await h); [apply start_budgeted, H | exact H].
Qed.

Lemma settle_budgeted p key v st :
  budgeted (set_promises (<[p := v]> (promises st)) st) ->
  budgeted (settle p key v st).
Proof.
  intros H. rewrite settle_unfold.
  apply (foldl_continue_ind budgeted).
  - eapply budgeted_ext; [| |exact H]; reflexivity.
  - intros s h _ Hs. apply continue_budgeted, Hs.
Qed.

Lemma wake_budgeted now p w st : budgeted st -> budgeted (wake now p w st).
Proof.
  intros H. unfold wake.
  destruct (promises st !! p) as [[x|r|e]|] eqn:Hp; try exact H.
  unfold advance.
  pose proof (resume_budget x w) as Hb.
  destruct (resume x w) as [acts out].
  assert (Hset : forall v,
    match v with
    | Pending x' => (attempts acts + remaining x' <= remaining x)%nat
    | _ => (attempts acts <= remaining x)%nat
    end ->
    budgeted (set_promises (<[p := v]> (promises st))
                (journal p (x_key x) acts st))).
  { intros v Hv q. pose proof (H q) as Hq. simpl.
    rewrite fetches_by_app, fetches_by_journal.
    destruct (decide (p = q)) as [<-|Hne].
    - rewrite list_lookup_insert_eq by (eapply lookup_lt_Some, Hp).
      rewrite Hp in Hq. destruct v; lia.
    - rewrite list_lookup_insert_ne by exact Hne.
      destruct (promises st !! q) as [[y| |]|]; lia. }
  destruct out as [x'|r|e].
  - apply Hset. exact Hb.
  - apply settle_budgeted.
    eapply budgeted_ext; [| |apply (Hset (Fulfilled r)); exact Hb]; reflexivity.
  - apply settle_budgeted. apply (Hset (Rejected e)). exact Hb.
Qed.

Lemma POST_budgeted now rq st : budgeted st -> budgeted (POST now rq st).
Proof.
  intros H. unfold POST.
  destruct (cached now _); [exact H|].
  destruct (ongoingRequests _ !! _) as [p|].
  - destruct (promises _ !! p) as [[x|r|e]|]; try exact H.
    apply (continue_budgeted (Rejected e)). exact H.
  - apply start_budgeted. exact H.
Qed.

Lemma run_budgeted (evs : list (Z * Event)) : budgeted (run evs init).
Proof.
  assert (H0 : budgeted init) by (intros q; reflexivity).
  unfold run. revert H0. generalize init.
  induction evs as [|[now ev] evs IH]; intros st H; simpl; [exact H|].
  apply IH. destruct ev as [rq|p o|p]; simpl.
  - apply POST_budgeted, H.
  - apply wake_budgeted, H.
  - apply wake_budgeted, H.
Qed.

(** X11: in every run of the route, whatever requests arrive and whatever
    the provider answers, the executor of any one promise is journalled
    with at most three [fetch] calls. *)
Theorem three_fetches_per_promise (evs : list (Z * Event)) (p : nat) :
  (fetches_by p (log (run evs init)) <= 3)%nat.
Proof.
  pose proof (run_budgeted evs p) as H.
  destruct (promises (run evs init) !! p) as [[x|r|e]|]; lia.
Qed.

(** *** Every request is accounted for *)

Lemma tallied_reply ids1 id ids2 rs n r :
  tallied (ids1 ++ id :: ids2) rs n ->
  tallied (ids1 ++ ids2) (<[id := r]> rs) n.
Proof.
  intros (Hnd & Hin & Hout & Hup).
  apply NoDup_app in Hnd as (Hnd1 & Hdisj & Hnd2).
  apply NoDup_cons in Hnd2 as [Hid2 Hnd2].
  assert (Hid1 : id ∉ ids1).
  { intros H. apply (Hdisj id H). left. }
  assert (Hlt : (id < n)%nat).
  { apply Hin. apply elem_of_app. right. left. }
  repeat split.
  - apply NoDup_app. repeat split; try assumption.
    intros y Hy1 Hy2. apply (Hdisj y Hy1). right. exact Hy2.
  - apply Hin. apply elem_of_app in H as [H|H]; apply elem_of_app;
      [left | right; right]; exact H.
  - rewrite lookup_insert_ne.
    + apply Hin. apply elem_of_app in H as [H|H]; apply elem_of_app;
        [left | right; right]; exact H.
    + intros ->. apply elem_of_app in H as [H|H]; contradiction.
  - intros y Hy Hnot. destruct (decide (id = y)) as [->|Hne].
    + rewrite lookup_insert_eq. eauto.
    + rewrite lookup_insert_ne by exact Hne. apply Hout; [exact Hy|].
      intros H. apply Hnot. apply elem_of_app in H as [H|H];
        apply elem_of_app; [left; exact H|].
      apply elem_of_cons in H as [H|H]; [congruence | right; exact H].
  - intros y Hy. rewrite lookup_insert_ne by lia. apply Hup, Hy.
Qed.

Lemma tallied_perm ids ids' rs n :
  ids ≡ₚ ids' -> tallied ids rs n -> tallied ids' rs n.
Proof.
  intros Hp (Hnd & Hin & Hout & Hup). repeat split.
  - rewrite <- Hp. exact Hnd.
  - apply Hin. rewrite Hp. exact H.
  - apply Hin. rewrite Hp. exact H.
  - intros id Hid Hnot. apply Hout; [exact Hid|]. rewrite Hp. exact Hnot.
  - exact Hup.
Qed.

Lemma tallied_arrival ids rs n :
  tallied ids rs n -> tallied (ids ++ [n]) rs (S n).
Proof.
  intros (Hnd & Hin & Hout & Hup). repeat split.
  - apply NoDup_app. repeat split; [exact Hnd| |apply NoDup_singleton].
    intros y Hy Hy'. apply list_elem_of_singleton in Hy'. subst y.
    destruct (Hin n Hy). lia.
  - apply elem_of_app in H as [H|H].
    + destruct (Hin id H). lia.
    + apply list_elem_of_singleton in H. lia.
  - apply elem_of_app in H as [H|H].
    + apply Hin, H.
    + apply list_elem_of_singleton in H. subst id. apply Hup. lia.
  - intros id Hid Hnot. apply Hout.
    + destruct (decide (id = n)) as [->|Hne]; [|lia].
      exfalso. apply Hnot. apply elem_of_app. right. left.
    + intros H. apply Hnot. apply elem_of_app. left. exact H.
  - intros id Hid. apply Hup. lia.
Qed.

Lemma start_tally id rq st :
  (replies (start id rq st) = replies st
   /\ map h_id (handlers (start id rq st)) = map h_id (handlers st) ++ [id])
  \/ (replies (start id rq st) = <[id := Error500 object_Object]> (replies st)
      /\ handlers (start id rq st) = handlers st).
Proof.
  unfold start. destruct (select rq); simpl.
  - left. split; [reflexivity|]. rewrite map_app. reflexivity.
  - right. split; reflexivity.
Qed.

Lemma continue_accounted v h ws st :
  (forall x, v <> Pending x) ->
  accounted_with (h :: ws) st ->
  accounted_with ws (continue v h st)
  /\ (forall id r, replies st !! id = Some r ->
                   replies (continue v h st) !! id = Some r).
Proof.
  intros Hv H. unfold accounted_with in *. rewrite map_app in H. simpl in H.
  assert (Hnone : replies st !! h_id h = None).
  { destruct H as (_ & Hin & _). apply Hin. apply elem_of_app. right. left. }
  assert (Hreply : forall r0,
    tallied (map h_id (handlers st ++ ws)) (<[h_id h := r0]> (replies st))
      (arrivals st)
    /\ (forall id r, replies st !! id = Some r ->
                     <[h_id h := r0]> (replies st) !! id = Some r)).
  { intros r0. split.
    - rewrite map_app. eapply tallied_reply. exact H.
    - intros id r Hr. rewrite lookup_insert_ne; [exact Hr|]. congruence. }
  unfold continue. destruct v as [x|r|e].
  - exfalso. eapply Hv. reflexivity.
  - apply Hreply.
  - destruct (h_await h); [|apply Hreply].
    rewrite start_arrivals.
    destruct (start_tally (h_id h) (h_request h) st) as [[Hr Hh]|[Hr Hh]].
    + rewrite Hr. split; [|auto].
      rewrite map_app, Hh, <- app_assoc. exact H.
    + rewrite Hr, Hh. apply Hreply.
Qed.

Lemma woken_accounted v (ws : list Handler) st :
  (forall x, v <> Pending x) ->
  accounted_with ws st ->
  accounted (foldl (fun s h => continue v h s) st ws)
  /\ (forall id r, replies st !! id = Some r ->
        replies (foldl (fun s h => continue v h s) st ws) !! id = Some r).
Proof.
  intros Hv. revert st. induction ws as [|h ws IH]; intros st H; simpl.
  - split; [exact H | auto].
  - destruct (continue_accounted v h ws st Hv H) as [Hc Hkeep].
    destruct (IH _ Hc) as [Hacc Hkeep']. split; [exact Hacc|].
    intros id r Hr. apply Hkeep', Hkeep, Hr.
Qed.

Lemma filter_awaits_perm p (hs : list Handler) :
  filter (fun h => awaits p h = false) hs
  ++ filter (fun h => awaits p h = true) hs ≡ₚ hs.
Proof.
  induction hs as [|h hs IH]; [reflexivity|].
  destruct (awaits p h) eqn:Hh.
  - rewrite filter_cons_False by congruence.
    rewrite filter_cons_True by exact Hh.
    rewrite <- Permutation_middle. constructor. exact IH.
  - rewrite filter_cons_True by exact Hh.
    rewrite filter_cons_False by congruence.
    simpl. constructor. exact IH.
Qed.

Lemma settle_accounted p key v st :
  (forall x, v <> Pending x) ->
  accounted st ->
  accounted (settle p key v st)
  /\ (forall id r, replies st !! id = Some r ->
                   replies (settle p key v st) !! id = Some r).
Proof.
  intros Hv H. rewrite settle_unfold.
  apply (woken_accounted v _ (settled_base p key v st) Hv).
  unfold accounted, accounted_with in *. simpl.
  rewrite app_nil_r in H.
  eapply tallied_perm; [|exact H].
  apply fmap_Permutation. symmetry. apply filter_awaits_perm.
Qed.

Lemma wake_accounted now p w st :
  accounted st ->
  accounted (wake now p w st)
  /\ (forall id r, replies st !! id = Some r ->
                   replies (wake now p w st) !! id = Some r).
Proof.
  intros H. unfold wake.
  destruct (promises st !! p) as [[x|r|e]|]; try (split; [exact H | auto]).
  unfold advance. destruct (resume x w) as [acts [x'|r|e]].
  - split; [exact H | auto].
  - exact (settle_accounted p (x_key x) (Fulfilled r)
             (set_responseCache
                (<[x_key x := {| data := r; timestamp := now |}]>
                   (responseCache st))
                (journal p (x_key x) acts st))
             ltac:(discriminate) H).
  - exact (settle_accounted p (x_key x) (Rejected e)
             (journal p (x_key x) acts st) ltac:(discriminate) H).
Qed.

Lemma POST_accounted now rq st :
  accounted st ->
  accounted (POST now rq st)
  /\ (forall id r, replies st !! id = Some r ->
                   replies (POST now rq st) !! id = Some r).
Proof.
  intros H. unfold accounted, accounted_with in H. rewrite app_nil_r in H.
  pose proof (tallied_arrival _ _ _ H) as Harr.
  assert (Hnone : replies st !! arrivals st = None).
  { destruct H as (_ & _ & _ & Hup). apply Hup. lia. }
  assert (Hreply : forall r0,
    accounted (reply (arrivals st) r0 (set_arrivals (S (arrivals st)) st))
    /\ (forall id r, replies st !! id = Some r ->
          replies (reply (arrivals st) r0 (set_arrivals (S (arrivals st)) st))
            !! id = Some r)).
  { intros r0. split.
    - unfold accounted, accounted_with. simpl. rewrite app_nil_r.
      pose proof (tallied_reply _ _ [] _ _ r0 Harr) as Ht.
      rewrite app_nil_r in Ht. exact Ht.
    - intros id r Hr. simpl. rewrite lookup_insert_ne; [exact Hr|]. congruence. }
  assert (Hcont : forall v h,
    (forall x, v <> Pending x) -> h_id h = arrivals st ->
    accounted (continue v h (set_arrivals (S (arrivals st)) st))
    /\ (forall id r, replies st !! id = Some r ->
          replies (continue v h (set_arrivals (S (arrivals st)) st)) !! id
          = Some r)).
  { intros v h Hv Hh.
    apply (continue_accounted v h [] (set_arrivals (S (arrivals st)) st) Hv).
    unfold accounted_with. simpl. rewrite map_app. simpl. rewrite Hh.
    exact Harr. }
  unfold POST.
  destruct (cached now _); [apply Hreply|].
  destruct (ongoingRequests _ !! _) as [p|].
  - assert (Hwait : forall h, h_id h = arrivals st ->
      accounted (set_handlers
                   (handlers (set_arrivals (S (arrivals st)) st) ++ [h])
                   (set_arrivals (S (arrivals st)) st))).
    { intros h Hh. unfold accounted, accounted_with. simpl.
      rewrite app_nil_r, map_app. simpl. rewrite Hh. exact Harr. }
    destruct (promises _ !! p) as [[x|r|e]|].
    + split; [apply Hwait; reflexivity | auto].
    + apply (Hcont (Fulfilled r)); [discriminate | reflexivity].
    + apply (Hcont (Rejected e)); [discriminate | reflexivity].
    + split; [apply Hwait; reflexivity | auto].
  - rewrite start_as_continue. apply Hcont; [discriminate | reflexivity].
Qed.

Lemma step_accounted now ev st :
  accounted st ->
  accounted (step now ev st)
  /\ (forall id r, replies st !! id = Some r ->
                   replies (step now ev st) !! id = Some r).
Proof.
  destruct ev; simpl;
    [apply POST_accounted | apply wake_accounted | apply wake_accounted].
Qed.

Lemma run_accounted (evs : list (Z * Event)) st :
  accounted st ->
  accounted (run evs st)
  /\ (forall id r, replies st !! id = Some r ->
                   replies (run evs st) !! id = Some r).
Proof.
  revert st. induction evs as [|[now ev] evs IH]; intros st H; simpl.
  - split; [exact H | auto].
  - destruct (step_accounted now ev st H) as [Hs Hkeep].
    destruct (IH _ Hs) as [Hr Hkeep']. split; [exact Hr|].
    intros id r Hid. apply Hkeep', Hkeep, Hid.
Qed.

Lemma init_accounted : accounted init.
Proof.
  unfold accounted, accounted_with, tallied. simpl.
  split; [constructor|]. split; [intros id Hin; inversion Hin|].
  split; [intros id Hid; lia | intros id _; reflexivity].
Qed.

(** X12: no request is lost and none is answered twice. In every state
    the route can reach, each request that has arrived is either
    suspended at exactly one [await], with no reply sent, or has its
    reply; and a reply once sent is the same after any further events. *)
Theorem every_request_accounted (evs more : list (Z * Event)) :
  accounted (run evs init)
  /\ replies (run evs init) ⊆ replies (run more (run evs init)).
Proof.
  destruct (run_accounted evs init init_accounted) as [Hacc _].
  split; [exact Hacc|].
  destruct (run_accounted more _ Hacc) as [_ Hkeep].
  apply map_subseteq_spec. exact Hkeep.
Qed.

(** *** Joining an ongoing call *)

Lemma fulfilled_log r (ws : list Handler) s :
  log (foldl (fun s h => continue (Fulfilled r) h s) s ws) = log s.
Proof.
  apply (foldl_continue_ind (fun s' => log s' = log s)); [reflexivity|].
  intros s' h _ Hs. exact Hs.
Qed.

(** *** A failed call and its waiters *)

Lemma fetches_app (l1 l2 : list Entry) :
  fetches (l1 ++ l2) = (fetches l1 + fetches l2)%nat.
Proof. unfold fetches. rewrite map_app. apply attempts_app. Qed.

Lemma rejected_fetches e (ws : list Handler) s :
  fetches (log (foldl (fun s h => continue (Rejected e) h s) s ws))
  = (fetches (log s) + length (filter (fun h => retries h = true) ws))%nat.
Proof.
  revert s. induction ws as [|h ws IH]; intros s; simpl; [lia|].
  rewrite IH.
  destruct (h_await h) eqn:Hw; simpl.
  - unfold start. destruct (select (h_request h)) as [call|] eqn:Hsel; simpl.
    + rewrite filter_cons_True
        by (unfold retries; rewrite Hw, Hsel; reflexivity).
      rewrite fetches_app. unfold fetches at 2, attempts. simpl. lia.
    + rewrite filter_cons_False
        by (unfold retries; rewrite Hw, Hsel; discriminate).
      lia.
  - rewrite filter_cons_False by (unfold retries; rewrite Hw; discriminate).
    lia.
Qed.

Lemma resume_reject_acts x w acts e :
  resume x w = (acts, Reject e) -> acts = [].
Proof.
  assert (Hcatch : forall m y, catch m y = (acts, Reject e) -> acts = []).
  { intros m y. unfold catch. destruct (_ >=? _); [|discriminate].
    intros [= <- _]. reflexivity. }
  assert (Hloop : forall y, loop y = (acts, Reject e) -> acts = []).
  { intros y. unfold loop. destruct (_ <? _); [discriminate|].
    apply after_loop_acts. }
  unfold resume.
  destruct (x_stage x), w as [[m|rs]|]; try discriminate; auto.
  - apply Hcatch.
  - destruct (ok rs); [apply after_loop_acts|].
    destruct (body rs) as [d|m]; [|apply Hcatch].
    destruct (status rs =? 429); [discriminate|].
    intros [= <- _]. reflexivity.
  - apply Hloop.
  - apply Hloop.
Qed.

(** X14: what one wake-up of an executor adds to the network traffic.
    While the executor goes on, only its own actions are journalled. When
    it resolves its promise, nothing is: every waiter is served by the
    result. When it rejects its promise, each handler that had joined the
    call with a recognized task issues a [fetch] of its own at once, so a
    failed call with [n] such waiters is followed by [n] simultaneous
    upstream calls for the same key. *)
Theorem traffic_after_wake
    (now : Z) (p : nat) (w : Wake) (st : Server) (x : Executor) :
  promises st !! p = Some (Pending x) ->
  match resume x w with
  | (acts, Suspend _) =>
      log (wake now p w st) = log st ++ map (Build_Entry p (x_key x)) acts
  | (_, Resolve _) => log (wake now p w st) = log st
  | (_, Reject _) =>
      fetches (log (wake now p w st))
      = (fetches (log st)
         + length (filter (fun h => retries h = true)
                     (filter (fun h => awaits p h = true) (handlers st))))%nat
  end.
Proof.
  intros Hp. unfold wake. rewrite Hp. unfold advance.
  destruct (resume x w) as [acts [x'|r|e]] eqn:Hres.
  - reflexivity.
  - pose proof (resume_resolve_acts _ _ _ _ Hres) as ->.
    rewrite settle_unfold, fulfilled_log. simpl. apply app_nil_r.
  - pose proof (resume_reject_acts _ _ _ _ Hres) as ->.
    rewrite settle_unfold, rejected_fetches. simpl. rewrite app_nil_r.
    reflexivity.
Qed.

Lemma traffic_after_wake_witness :
  let st := run [(0, Arrives summarize_cells); (1, Arrives summarize_cells);
                 (2, Arrives summarize_cells)] init in
  promises st !! 0%nat
  = Some (Pending (first_attempt (cacheKey summarize_cells)
                     (default sample_call (select summarize_cells))))
  /\ fetches (log st) = 1%nat
  /\ fetches (log (wake 3 0 (Fetched (FetchResponds server_error)) st))
     = 3%nat.
Proof.
  split; [reflexivity|]. split; [reflexivity|].
  pose proof (traffic_after_wake 3 0 (Fetched (FetchResponds server_error))
                (run [(0, Arrives summarize_cells);
                      (1, Arrives summarize_cells);
                      (2, Arrives summarize_cells)] init)
                _ eq_refl) as H.
  exact H.
Defined.

(** *** Requests that miss the cache *)

(** X15: in every state the route can reach, a request that misses the
    cache does one of two things. Either a call for its key is pending,
    and it waits for that call without creating a promise; or it runs
    lines 42-213 itself, exactly as if the map of ongoing requests had no
    entry for its key. An entry left behind by an unrecognized task never
    answers a request and never holds one up. *)
Theorem cache_miss_joins_or_starts
    (evs : list (Z * Event)) (now : Z) (rq : Request) :
  let st := run evs init in
  cached now (responseCache st !! cacheKey rq) = None ->
  (exists p x,
      ongoingRequests st !! cacheKey rq = Some p
      /\ promises st !! p = Some (Pending x)
      /\ x_key x = cacheKey rq
      /\ POST now rq st
         = set_handlers
             (handlers st ++ [{| h_id := arrivals st; h_request := rq;
                                 h_promise := p; h_await := Shared |}])
             (set_arrivals (S (arrivals st)) st))
  \/ POST now rq st
     = start (arrivals st) rq (set_arrivals (S (arrivals st)) st).
Proof.
  intros st Hc. destruct (run_sound evs) as [_ Hos]. fold st in Hos.
  unfold POST. simpl. rewrite Hc.
  destruct (ongoingRequests st !! cacheKey rq) as [p|] eqn:Ho;
    [|right; reflexivity].
  destruct (Hos _ _ Ho) as [(x & Hx & Hkey)|Hx]; rewrite Hx.
  - left. exists p, x. auto.
  - right. reflexivity.
Qed.

Lemma cache_miss_joins_or_starts_witness :
  cached 1 (responseCache (run [(0, Arrives translate_hello)] init)
              !! cacheKey translate_hello) = None
  /\ POST 1 translate_hello (run [(0, Arrives translate_hello)] init)
     = start 1 translate_hello
         (set_arrivals 2 (run [(0, Arrives translate_hello)] init)).
Proof.
  split; [reflexivity|].
  destruct (cache_miss_joins_or_starts [(0, Arrives translate_hello)] 1
              translate_hello eq_refl) as [(p & x & Ho & Hp & _)|H].
  - exfalso. vm_compute in Ho. injection Ho as <-. vm_compute in Hp.
    discriminate Hp.
  - exact H.
Defined.

(** *** Absent fields and the prompt *)

(** X16: an absent [content] or [prompt] is treated as the text
    "undefined": the request gets the key, the model, the prompts and the
    sampling parameters of a request that carries that very word, and so
    shares its cache entry. *)
Theorem absent_field_is_undefined (t : string) (c p : option string) :
  cacheKey {| task := t; content := None; prompt := p |}
  = cacheKey {| task := t; content := Some "undefined"; prompt := p |}
  /\ cacheKey {| task := t; content := c; prompt := None |}
     = cacheKey {| task := t; content := c; prompt := Some "undefined" |}
  /\ select {| task := t; content := None; prompt := p |}
     = select {| task := t; content := Some "undefined"; prompt := p |}
  /\ select {| task := t; content := c; prompt := None |}
     = select {| task := t; content := c; prompt := Some "undefined" |}.
Proof. repeat split. Qed.

(** X17: the prompt reaches the provider for "askdoubt" only. For any
    other task two requests that differ in their prompt alone send the
    same call upstream, while their cache keys differ as soon as the
    first 50 characters of the two prompts do. *)
Theorem prompt_matters_for_askdoubt_only
    (t : string) (c p1 p2 : option string) :
  t <> "askdoubt" ->
  select {| task := t; content := c; prompt := p1 |}
  = select {| task := t; content := c; prompt := p2 |}
  /\ (show (slice 50 p1) <> show (slice 50 p2) ->
      cacheKey {| task := t; content := c; prompt := p1 |}
      <> cacheKey {| task := t; content := c; prompt := p2 |}).
Proof.
  intros Ht. split.
  - unfold select. simpl.
    apply String.eqb_neq in Ht. rewrite Ht. reflexivity.
  - intros Hne. unfold cacheKey. simpl. intros E.
    apply Hne.
    repeat match type of E with
           | (?a +:+ _ = ?a +:+ _) => apply (inj (String.app a)) in E
           end.
    exact E.
Qed.

Lemma prompt_matters_for_askdoubt_only_witness :
  "quiz" <> "askdoubt"
  /\ select {| task := "quiz"; content := Some "cells"; prompt := Some "a" |}
     = select {| task := "quiz"; content := Some "cells"; prompt := Some "b" |}.
Proof.
  split; [discriminate|].
  apply (prompt_matters_for_askdoubt_only "quiz" (Some "cells")
           (Some "a") (Some "b")).
  discriminate.
Defined.

End RouteRuns.

(* ===================================================================== *)
(** ** Handlers that await a shared promise *)
(* ===================================================================== *)

Section RouteWaiters.
Import Js Route.

Lemma run_app (evs1 evs2 : list (Z * Event)) (st : Server) :
  run (evs1 ++ evs2) st = run evs2 (run evs1 st).
Proof. unfold run. apply foldl_app. Qed.

Lemma accounted_waiting (s : Server) (h : Handler) :
  accounted s -> h ∈ handlers s ->
  replies s !! h_id h = None /\ NoDup (map h_id (handlers s)).
Proof.
  unfold accounted, accounted_with. rewrite app_nil_r.
  intros (Hnd & Hin & _) Hh. split; [|exact Hnd].
  apply Hin. apply list_elem_of_fmap. exists h. auto.
Qed.

Lemma start_keeps_handlers id rq s h :
  h ∈ handlers s -> h ∈ handlers (start id rq s).
Proof.
  intros H. unfold start. destruct (select rq); simpl; [|exact H].
  apply elem_of_app. left. exact H.
Qed.

Lemma start_keeps_log id rq s e : e ∈ log s -> e ∈ log (start id rq s).
Proof.
  intros H. unfold start. destruct (select rq); simpl; [|exact H].
  apply elem_of_app. left. exact H.
Qed.

Lemma start_keeps_promise id rq s i v :
  promises s !! i = Some v -> promises (start id rq s) !! i = Some v.
Proof.
  intros H. destruct (start_promises id rq s) as (w & -> & _).
  apply lookup_app_l_Some, H.
Qed.

Lemma continue_keeps_handlers v h' s h :
  h ∈ handlers s -> h ∈ handlers (continue v h' s).
Proof.
  intros H. unfold continue. destruct v as [x|r|e]; try exact H.
  destruct (h_await h'); [apply start_keeps_handlers, H | exact H].
Qed.

Lemma continue_keeps_log v h' s e : e ∈ log s -> e ∈ log (continue v h' s).
Proof.
  intros H. unfold continue. destruct v as [x|r|e0]; try exact H.
  destruct (h_await h'); [apply start_keeps_log, H | exact H].
Qed.

Lemma continue_keeps_promise v h' s i w :
  promises s !! i = Some w -> promises (continue v h' s) !! i = Some w.
Proof.
  intros H. unfold continue. destruct v as [x|r|e]; try exact H.
  destruct (h_await h'); [apply start_keeps_promise, H | exact H].
Qed.

(** Once a later promise stands under a key, each further handler either
    leaves the entry alone or puts a still later promise there. *)
Lemma continue_keeps_entry v h' s key (p' : nat) :
  (exists q, ongoingRequests s !! key = Some q
             /\ (p' <= q < length (promises s))%nat) ->
  exists q, ongoingRequests (continue v h' s) !! key = Some q
            /\ (p' <= q < length (promises (continue v h' s)))%nat.
Proof.
  intros (q & Hq & Hle).
  pose proof (continue_promises_length v h' s) as Hlen.
  unfold continue in *. destruct v as [x|r|e];
    try (exists q; split; [exact Hq | simpl in *; lia]).
  destruct (h_await h'); [|exists q; split; [exact Hq | simpl in *; lia]].
  unfold start in *. destruct (select (h_request h')); simpl in *.
  - destruct (decide (cacheKey (h_request h') = key)) as [<-|Hne].
    + exists (length (promises s)). rewrite lookup_insert_eq.
      split; [reflexivity|]. rewrite length_app. simpl. lia.
    + exists q. rewrite lookup_insert_ne by exact Hne. split; [exact Hq | lia].
  - destruct (decide (cacheKey (h_request h') = key)) as [<-|Hne].
    + exists (length (promises s)). rewrite lookup_insert_eq.
      split; [reflexivity|]. rewrite length_app. simpl. lia.
    + exists q. rewrite lookup_insert_ne, lookup_delete_ne by exact Hne.
      split; [exact Hq | lia].
Qed.

Lemma woken_keep_handlers v (ws : list Handler) s h :
  h ∈ handlers s -> h ∈ handlers (foldl (fun s h' => continue v h' s) s ws).
Proof.
  intros H. apply (foldl_continue_ind (fun s' => h ∈ handlers s')); [exact H|].
  intros s' h' _ Hs. apply continue_keeps_handlers, Hs.
Qed.

Lemma woken_keep_promise v (ws : list Handler) s i w :
  promises s !! i = Some w ->
  promises (foldl (fun s h' => continue v h' s) s ws) !! i = Some w.
Proof.
  intros H.
  apply (foldl_continue_ind (fun s' => promises s' !! i = Some w)); [exact H|].
  intros s' h' _ Hs. apply continue_keeps_promise, Hs.
Qed.

(** A handler that awaits [p] stays suspended when another promise
    settles. *)
Lemma settle_keeps_other q key v s h :
  h ∈ handlers s -> h_promise h <> q -> h ∈ handlers (settle q key v s).
Proof.
  intros H Hne. rewrite settle_unfold. apply woken_keep_handlers. simpl.
  apply list_elem_of_filter. split; [|exact H].
  unfold awaits. apply Nat.eqb_neq. exact Hne.
Qed.

Lemma POST_keeps_handlers now rq s h :
  h ∈ handlers s -> h ∈ handlers (POST now rq s).
Proof.
  intros H. unfold POST. cbv zeta. destruct (cached now _); [exact H|].
  destruct (ongoingRequests _ !! _) as [p|];
    [|apply start_keeps_handlers; exact H].
  destruct (promises _ !! p) as [[x|r|e]|].
  - simpl. apply elem_of_app. left. exact H.
  - apply (continue_keeps_handlers (Fulfilled r)). exact H.
  - apply (continue_keeps_handlers (Rejected e)). exact H.
  - simpl. apply elem_of_app. left. exact H.
Qed.

(** The handlers woken after [h], once [h] has started over. *)
Lemma restarted_kept e (ws : list Handler) (h : Handler) (call : Call)
    (st s : Server) :
  (forall h', h' ∈ ws -> h_id h' <> h_id h) ->
  select (h_request h) = Some call ->
  replies s !! h_id h = None ->
  (length (promises st) <= length (promises s))%nat ->
  restarted h call st
    (foldl (fun s h' => continue (Rejected e) h' s)
       (start (h_id h) (h_request h) s) ws).
Proof.
  intros Hids Hsel Hnone Hlen.
  set (p' := length (promises s)).
  set (entry := {| e_promise := p'; e_key := cacheKey (h_request h);
                   e_action := Fetch call |}).
  set (own := {| h_id := h_id h; h_request := h_request h; h_promise := p';
                 h_await := Own |}).
  assert (H : forall s',
    s' = foldl (fun s h' => continue (Rejected e) h' s)
           (start (h_id h) (h_request h) s) ws ->
    replies s' !! h_id h = None
    /\ promises s' !! p'
       = Some (Pending (first_attempt (cacheKey (h_request h)) call))
    /\ (exists q, ongoingRequests s' !! cacheKey (h_request h) = Some q
                  /\ (p' <= q < length (promises s'))%nat)
    /\ entry ∈ log s' /\ own ∈ handlers s').
  { intros s' ->.
    apply (foldl_continue_ind
      (fun s' =>
         replies s' !! h_id h = None
         /\ promises s' !! p'
            = Some (Pending (first_attempt (cacheKey (h_request h)) call))
         /\ (exists q, ongoingRequests s' !! cacheKey (h_request h) = Some q
                       /\ (p' <= q < length (promises s'))%nat)
         /\ entry ∈ log s' /\ own ∈ handlers s')).
    - rewrite (start_recognized _ _ _ _ Hsel). simpl.
      split; [exact Hnone|]. split.
      { apply list_lookup_middle. reflexivity. }
      split.
      { exists p'. rewrite lookup_insert_eq. split; [reflexivity|].
        rewrite length_app. simpl. unfold p'. lia. }
      split; apply elem_of_app; right; apply list_elem_of_singleton;
        reflexivity.
    - intros s' h' Hin (Hr & Hp & Ho & He & Hh).
      split; [|split; [|split; [|split]]].
      + rewrite continue_replies_other; [exact Hr|].
        intros E. apply (Hids h' Hin). symmetry. exact E.
      + apply continue_keeps_promise, Hp.
      + apply continue_keeps_entry, Ho.
      + apply continue_keeps_log, He.
      + apply continue_keeps_handlers, Hh. }
  destruct (H _ eq_refl) as (Hr & Hp & (q & Hq & Hle) & He & Hh).
  split; [exact Hr|]. exists p', q. unfold p' in *.
  repeat split; try assumption; lia.
Qed.

(** One wake-up of some executor, seen from a handler that awaits a
    shared promise. *)
Lemma shared_waiter_wake (now : Z) (q : nat) (w : Wake) (st : Server)
    (h : Handler) :
  sound st -> accounted st ->
  h ∈ handlers st -> h_await h = Shared ->
  match (if (q =? h_promise h)%nat
         then match promises st !! h_promise h with
              | Some (Pending x) => Some (resume x w).2
              | _ => None
              end
         else None) with
  | Some (Resolve r) => replies (wake now q w st) !! h_id h = Some (Json200 r)
  | Some (Reject _) =>
      match select (h_request h) with
      | Some call => restarted h call st (wake now q w st)
      | None =>
          replies (wake now q w st) !! h_id h = Some (Error500 object_Object)
      end
  | Some (Suspend _) | None =>
      h ∈ handlers (wake now q w st)
      /\ replies (wake now q w st) !! h_id h = None
  end.
Proof.
  intros Hsound Hacc Hin Hshared.
  destruct (accounted_waiting st h Hacc Hin) as [Hnone Hnd].
  assert (Hstill : h ∈ handlers (wake now q w st) ->
    h ∈ handlers (wake now q w st)
    /\ replies (wake now q w st) !! h_id h = None).
  { intros H. split; [exact H|].
    apply accounted_waiting; [|exact H]. apply wake_accounted, Hacc. }
  destruct (Nat.eqb_spec q (h_promise h)) as [->|Hne].
  - destruct Hsound as [Hhs _]. destruct (Hhs h Hin) as [x Hx].
    rewrite Hx. unfold wake in *. rewrite Hx in *. unfold advance in *.
    destruct (resume x w) as [acts [x'|r|e]] eqn:Hres; cbn [snd].
    + apply Hstill. exact Hin.
    + rewrite settle_unfold. apply fulfilled_replies. right.
      apply list_elem_of_fmap. exists h. split; [reflexivity|].
      apply list_elem_of_filter. split; [|exact Hin].
      unfold awaits. apply Nat.eqb_refl.
    + rewrite settle_unfold.
      assert (Hw : h ∈ filter (fun h' => awaits (h_promise h) h' = true)
                         (handlers st)).
      { apply list_elem_of_filter. split; [|exact Hin].
        unfold awaits. apply Nat.eqb_refl. }
      assert (Hndw : NoDup (map h_id
                (filter (fun h' => awaits (h_promise h) h' = true)
                   (handlers st)))).
      { eapply sublist_NoDup; [exact Hnd|].
        apply fmap_sublist, sublist_filter. }
      change (handlers (journal (h_promise h) (x_key x) acts st))
        with (handlers st).
      apply list_elem_of_split in Hw as (ws1 & ws2 & Hsplit).
      rewrite Hsplit in *. rewrite map_app in Hndw. simpl in Hndw.
      apply NoDup_app in Hndw as (_ & Hdisj & Hnd2).
      apply NoDup_cons in Hnd2 as [Hnot2 _].
      rewrite foldl_app. cbn [foldl].
      match goal with
      | |- context [continue _ h ?b] => set (s1 := b)
      end.
      assert (Hs1 : replies s1 !! h_id h = None
                    /\ (length (promises st) <= length (promises s1))%nat).
      { apply (foldl_continue_ind
          (fun s => replies s !! h_id h = None
                    /\ (length (promises st) <= length (promises s))%nat)).
        - simpl. rewrite length_insert. split; [exact Hnone | lia].
        - intros s h' Hh' [Hr Hl]. split.
          + rewrite continue_replies_other; [exact Hr|].
            intros E. apply (Hdisj (h_id h)).
            * apply list_elem_of_fmap. exists h'. split; [exact E | exact Hh'].
            * left.
          + pose proof (continue_promises_length (Rejected e) h' s). lia. }
      destruct Hs1 as [Hr1 Hl1].
      change (continue (Rejected e) h s1)
        with (match h_await h with
              | Shared => start (h_id h) (h_request h) s1
              | Own => reply (h_id h) (Error500 object_Object) s1
              end).
      rewrite Hshared.
      destruct (select (h_request h)) as [call|] eqn:Hsel.
      * apply restarted_kept; try assumption.
        intros h' Hh' E. apply Hnot2.
        apply list_elem_of_fmap. exists h'. split; [symmetry; exact E | exact Hh'].
      * apply rejected_replies. left.
        rewrite (start_unrecognized _ _ _ Hsel). simpl.
        apply lookup_insert_eq.
  - apply Hstill. unfold wake.
    destruct (promises st !! q) as [[y|r|e]|]; try exact Hin.
    unfold advance. destruct (resume y w) as [acts [y'|r|e]].
    + exact Hin.
    + apply settle_keeps_other; [exact Hin | congruence].
    + apply settle_keeps_other; [exact Hin | congruence].
Qed.

(** Any one event, seen from a handler that awaits a shared promise, in
    any state the route can reach. *)
Lemma shared_waiter_step (evs : list (Z * Event)) (now : Z) (ev : Event)
    (h : Handler) :
  h ∈ handlers (run evs init) -> h_await h = Shared ->
  waiter_after h ev (run evs init) (step now ev (run evs init)).
Proof.
  intros Hin Hshared.
  pose proof (run_sound evs) as Hsound.
  destruct (run_accounted evs init init_accounted) as [Hacc _].
  unfold waiter_after, outcome_for.
  destruct ev as [rq|q o|q]; simpl.
  - split; [apply POST_keeps_handlers, Hin|].
    apply accounted_waiting.
    + apply POST_accounted, Hacc.
    + apply POST_keeps_handlers, Hin.
  - apply (shared_waiter_wake now q (Fetched o)); assumption.
  - apply (shared_waiter_wake now q TimerFired); assumption.
Qed.

(** *** A settled promise stays settled *)

Lemma POST_keeps_promise now rq s i v :
  promises s !! i = Some v -> promises (POST now rq s) !! i = Some v.
Proof.
  intros H. unfold POST. cbv zeta. destruct (cached now _); [exact H|].
  destruct (ongoingRequests _ !! _) as [p|];
    [|apply start_keeps_promise; exact H].
  destruct (promises _ !! p) as [[x|r|e]|].
  - exact H.
  - apply (continue_keeps_promise (Fulfilled r)). exact H.
  - apply (continue_keeps_promise (Rejected e)). exact H.
  - exact H.
Qed.

Lemma wake_settled_stays now q w s i v :
  promises s !! i = Some v -> (forall x, v <> Pending x) ->
  promises (wake now q w s) !! i = Some v.
Proof.
  intros H Hv. unfold wake.
  destruct (promises s !! q) as [[y|r|e]|] eqn:Hq; try exact H.
  assert (Hne : q <> i).
  { intros ->. rewrite Hq in H. injection H as <-. exact (Hv y eq_refl). }
  unfold advance. destruct (resume y w) as [acts [y'|r|e]].
  - simpl. rewrite list_lookup_insert_ne; [exact H | exact Hne].
  - rewrite settle_unfold. apply woken_keep_promise. simpl.
    rewrite list_lookup_insert_ne; [exact H | exact Hne].
  - rewrite settle_unfold. apply woken_keep_promise. simpl.
    rewrite list_lookup_insert_ne; [exact H | exact Hne].
Qed.

Lemma wake_settles now p w s x :
  promises s !! p = Some (Pending x) ->
  match (resume x w).2 with
  | Suspend _ => True
  | Resolve r => promises (wake now p w s) !! p = Some (Fulfilled r)
  | Reject e => promises (wake now p w s) !! p = Some (Rejected e)
  end.
Proof.
  intros H. pose proof (lookup_lt_Some _ _ _ H) as Hlt.
  unfold wake. rewrite H. unfold advance.
  destruct (resume x w) as [acts [x'|r|e]]; cbn [snd]; [exact I| |];
    rewrite settle_unfold; apply woken_keep_promise; simpl;
    apply list_lookup_insert_eq; exact Hlt.
Qed.

Lemma step_settled_stays now ev s i v :
  promises s !! i = Some v -> (forall x, v <> Pending x) ->
  promises (step now ev s) !! i = Some v.
Proof.
  intros H Hv. destruct ev as [rq|q o|q]; simpl.
  - apply POST_keeps_promise, H.
  - apply wake_settled_stays; assumption.
  - apply wake_settled_stays; assumption.
Qed.

Lemma run_settled_stays (evs : list (Z * Event)) s i v :
  promises s !! i = Some v -> (forall x, v <> Pending x) ->
  promises (run evs s) !! i = Some v.
Proof.
  revert s. induction evs as [|[t ev] evs IH]; intros s H Hv; [exact H|].
  apply IH; [|exact Hv]. apply step_settled_stays; assumption.
Qed.

Lemma outcome_settles now ev s p :
  match outcome_for p ev s with
  | Some (Resolve r) => promises (step now ev s) !! p = Some (Fulfilled r)
  | Some (Reject e) => promises (step now ev s) !! p = Some (Rejected e)
  | _ => True
  end.
Proof.
  assert (H : forall w,
    match match promises s !! p with
          | Some (Pending x) => Some (resume x w).2
          | _ => None
          end with
    | Some (Resolve r) => promises (wake now p w s) !! p = Some (Fulfilled r)
    | Some (Reject e) => promises (wake now p w s) !! p = Some (Rejected e)
    | _ => True
    end).
  { intros w.
    destruct (promises s !! p) as [[x|r|e]|] eqn:Hp; try exact I.
    pose proof (wake_settles now p w s x Hp) as Hw.
    destruct (resume x w).2; [exact I | exact Hw | exact Hw]. }
  unfold outcome_for. destruct ev as [rq|q o|q]; simpl; [exact I| |];
    (destruct (Nat.eqb_spec q p) as [->|Hne]; [apply H | exact I]).
Qed.

(** A handler that awaits a shared promise stays suspended as long as
    the promise is pending. *)
Lemma run_keeps_waiter (mid evs : list (Z * Event)) (h : Handler)
    (x : Executor) :
  h ∈ handlers (run evs init) -> h_await h = Shared ->
  promises (run mid (run evs init)) !! h_promise h = Some (Pending x) ->
  h ∈ handlers (run mid (run evs init)).
Proof.
  revert evs. induction mid as [|[t ev] mid IH]; intros evs Hin Hs Hp;
    [exact Hin|].
  change (run ((t, ev) :: mid) (run evs init))
    with (run mid (step t ev (run evs init))) in *.
  assert (E : step t ev (run evs init) = run (evs ++ [(t, ev)]) init).
  { rewrite run_app. reflexivity. }
  pose proof (shared_waiter_step evs t ev h Hin Hs) as Hw.
  pose proof (outcome_settles t ev (run evs init) (h_promise h)) as Hout.
  unfold waiter_after in Hw.
  destruct (outcome_for (h_promise h) ev (run evs init)) as [[y|r|e]|].
  - rewrite E in *. apply IH; [apply Hw | exact Hs | exact Hp].
  - exfalso.
    rewrite (run_settled_stays mid _ _ _ Hout) in Hp; discriminate.
  - exfalso.
    rewrite (run_settled_stays mid _ _ _ Hout) in Hp; discriminate.
  - rewrite E in *. apply IH; [apply Hw | exact Hs | exact Hp].
Qed.




(** X13: a request that misses the cache and finds in [ongoingRequests] a
    pending promise under its key joins it: its arrival creates no promise
    and journals no network action. Whatever events follow, if the promise
    is still pending after them and its executor is then woken and
    resolves with [r], the joining request and every handler waiting for
    that promise are answered with the same [r], and nothing more is
    journalled: one upstream call serves them all. *)
Theorem joined_call_shares_result
    (evs mid : list (Z * Event)) (now1 now2 : Z) (rq : Request) (p : nat)
    (x x' : Executor) (w : Wake) (acts : list Action) (r : Result) :
  let st := run evs init in
  let st1 := step now1 (Arrives rq) st in
  let s := run mid st1 in
  cached now1 (responseCache st !! cacheKey rq) = None ->
  ongoingRequests st !! cacheKey rq = Some p ->
  promises st !! p = Some (Pending x) ->
  promises s !! p = Some (Pending x') ->
  resume x' w = (acts, Resolve r) ->
  log st1 = log st
  /\ promises st1 = promises st
  /\ log (wake now2 p w s) = log s
  /\ replies (wake now2 p w s) !! arrivals st = Some (Json200 r)
  /\ (forall h, h ∈ handlers s -> h_promise h = p ->
        replies (wake now2 p w s) !! h_id h = Some (Json200 r)).
Proof.
  intros st st1 s Hc Ho Hp Hp' Hres.
  pose proof (resume_resolve_acts _ _ _ _ Hres) as ->.
  set (h := {| h_id := arrivals st; h_request := rq; h_promise := p;
               h_await := Shared |}).
  assert (E1 : st1 = set_handlers (handlers st ++ [h])
                       (set_arrivals (S (arrivals st)) st)).
  { unfold st1. cbn [step]. apply (POST_waits _ _ _ _ _ Hc Ho Hp). }
  assert (Hall : forall h', h' ∈ handlers s -> h_promise h' = p ->
                   replies (wake now2 p w s) !! h_id h' = Some (Json200 r)).
  { intros h' Hin Hh. unfold wake. rewrite Hp'. unfold advance.
    rewrite Hres, settle_unfold. apply fulfilled_replies. right.
    apply list_elem_of_fmap. exists h'. split; [reflexivity|].
    apply list_elem_of_filter. split; [|exact Hin].
    unfold awaits. rewrite Hh. apply Nat.eqb_refl. }
  split; [rewrite E1; reflexivity|]. split; [rewrite E1; reflexivity|].
  split; [|split; [|exact Hall]].
  - unfold wake. rewrite Hp'. unfold advance. rewrite Hres, settle_unfold.
    rewrite fulfilled_log. simpl. apply app_nil_r.
  - apply (Hall h); [|reflexivity].
    assert (Es : s = run mid (run (evs ++ [(now1, Arrives rq)]) init)).
    { rewrite run_app. reflexivity. }
    rewrite Es in *.
    apply (run_keeps_waiter mid (evs ++ [(now1, Arrives rq)]) h x');
      [|reflexivity|exact Hp'].
    rewrite run_app. fold st. change (h ∈ handlers st1). rewrite E1. simpl.
    apply elem_of_app. right. left.
Qed.

(** Between the arrival of the joining request and the provider's answer
    two more requests arrive, one of them for the same key. *)
Lemma joined_call_shares_result_witness :
  let st := run [(0, Arrives summarize_cells)] init in
  let s := run [(2, Arrives translate_hello); (3, Arrives summarize_cells)]
             (step 1 (Arrives summarize_cells) st) in
  ongoingRequests st !! cacheKey summarize_cells = Some 0%nat
  /\ replies (wake 9 0 (Fetched (FetchResponds (completion "summary"))) s)
       !! 1%nat
     = Some (Json200 {| result := Some (JStr "summary") |}).
Proof.
  split; [vm_compute; reflexivity|].
  pose proof (joined_call_shares_result
                [(0, Arrives summarize_cells)]
                [(2, Arrives translate_hello); (3, Arrives summarize_cells)]
                1 9 summarize_cells 0
                (first_attempt (cacheKey summarize_cells)
                   (default sample_call (select summarize_cells)))
                (first_attempt (cacheKey summarize_cells)
                   (default sample_call (select summarize_cells)))
                (Fetched (FetchResponds (completion "summary"))) []
                {| result := Some (JStr "summary") |}
                eq_refl eq_refl eq_refl eq_refl eq_refl) as (_ & _ & _ & H & _).
  exact H.
Defined.

End RouteWaiters.

(* ===================================================================== *)
(** ** The cache and the selector, in any state the route can reach *)
(* ===================================================================== *)

Section RouteCache.
Import Js Route.

Lemma wake_responseCache now q w st :
  responseCache (wake now q w st)
  = match promises st !! q with
    | Some (Pending x) =>
        match (resume x w).2 with
        | Resolve r =>
            <[x_key x := {| data := r; timestamp := now |}]> (responseCache st)
        | _ => responseCache st
        end
    | _ => responseCache st
    end.
Proof.
  unfold wake. destruct (promises st !! q) as [[x|r|e]|]; try reflexivity.
  unfold advance. destruct (resume x w) as [acts [x'|r|e]]; simpl.
  - reflexivity.
  - rewrite settle_responseCache. reflexivity.
  - rewrite settle_responseCache. reflexivity.
Qed.

(** An entry written at [now1] or later is only ever replaced by a later
    one. *)
Lemma step_recent k now1 t ev s :
  (exists c, responseCache s !! k = Some c /\ now1 <= timestamp c) ->
  now1 <= t ->
  exists c, responseCache (step t ev s) !! k = Some c /\ now1 <= timestamp c.
Proof.
  intros (c & Hc & Hle) Ht.
  assert (Hwake : forall q w,
    exists c', responseCache (wake t q w s) !! k = Some c'
               /\ now1 <= timestamp c').
  { intros q w. rewrite wake_responseCache.
    destruct (promises s !! q) as [[x|r|e]|];
      try (exists c; split; assumption).
    destruct (resume x w).2 as [x'|r|e];
      try (exists c; split; assumption).
    destruct (decide (x_key x = k)) as [E|Hne].
    - eexists. rewrite E, lookup_insert_eq. split; [reflexivity | exact Ht].
    - exists c. rewrite lookup_insert_ne by exact Hne. split; assumption. }
  destruct ev as [rq|q o|q]; simpl.
  - rewrite POST_responseCache. exists c. split; assumption.
  - apply Hwake.
  - apply Hwake.
Qed.

Lemma run_recent k now1 (evs : list (Z * Event)) s :
  (forall t ev, (t, ev) ∈ evs -> now1 <= t) ->
  (exists c, responseCache s !! k = Some c /\ now1 <= timestamp c) ->
  exists c, responseCache (run evs s) !! k = Some c /\ now1 <= timestamp c.
Proof.
  revert s. induction evs as [|[t ev] evs IH]; intros s Ht H; [exact H|].
  apply IH.
  - intros t' ev' Hin. apply (Ht t' ev'). right. exact Hin.
  - apply step_recent; [exact H|]. apply (Ht t ev). left.
Qed.

(** C5, as the claim reads, fails. Three identical requests arrive; the
    provider answers 500 to the first one's call, so the two waiters start
    a call each. Request 1 succeeds at time 4 with one text, request 2 at
    time 5 with another, which replaces the cached entry. A fourth
    identical request at time 6, well within ten minutes of request 1's
    success, is answered with the second text, and three upstream calls
    were made for the key. *)
Lemma later_success_replaces_entry :
  let first_success :=
    run [(0, Arrives summarize_cells); (1, Arrives summarize_cells);
         (2, Arrives summarize_cells);
         (3, FetchSettles 0 (FetchResponds server_error));
         (4, FetchSettles 1 (FetchResponds (completion "first")))] init in
  let st := run [(5, FetchSettles 2 (FetchResponds (completion "second")));
                 (6, Arrives summarize_cells)] first_success in
  replies first_success !! 1%nat
  = Some (Json200 {| result := Some (JStr "first") |})
  /\ 6 - 4 < CACHE_TTL
  /\ replies st !! 3%nat
     = Some (Json200 {| result := Some (JStr "second") |})
  /\ log st = log first_success
  /\ fetches (log st) = 3%nat.
Proof. vm_compute. repeat split; reflexivity. Qed.

(** C5, amended: let [rq1] and [rq2] agree on the task, on
    [content.slice(0, 100)] and on [prompt.slice(0, 50)], and let the
    provider's answer at time [now1] make the executor of promise [p],
    started for [rq1], resolve with [r]. Then every handler that awaited
    [p] is answered with [r], and [r] is cached under the key at [now1].
    After any further events, [rq2] arriving less than ten minutes after
    [now1] is answered from the cache, with the entry then stored under
    the key, which was written at [now1] or later; its arrival creates no
    promise and journals no network action. If moreover the executor of
    [p] was the only thing under way for the key, and the further events
    happen while the entry is less than ten minutes old, then [rq2] is
    answered with the same [r] and the key has had no [fetch] beyond those
    of the first call. *)
Theorem second_call_served_from_cache
    (st : Server) (rq1 rq2 : Request) (p : nat) (x : Executor)
    (o : FetchOutcome) (acts : list Action) (r : Result) (now1 now2 : Z)
    (mid : list (Z * Event)) :
  let k := cacheKey rq1 in
  let st1 := step now1 (FetchSettles p o) st in
  let st2 := run mid st1 in
  let st3 := step now2 (Arrives rq2) st2 in
  task rq2 = task rq1 ->
  slice 100 (content rq2) = slice 100 (content rq1) ->
  slice 50 (prompt rq2) = slice 50 (prompt rq1) ->
  promises st !! p = Some (Pending x) ->
  x_key x = k ->
  resume x (Fetched o) = (acts, Resolve r) ->
  (forall t ev, (t, ev) ∈ mid -> now1 <= t) ->
  now2 - now1 < CACHE_TTL ->
  (forall h, h ∈ handlers st -> h_promise h = p ->
             replies st1 !! h_id h = Some (Json200 r))
  /\ responseCache st1 !! k = Some {| data := r; timestamp := now1 |}
  /\ (exists c, responseCache st2 !! k = Some c /\ now1 <= timestamp c
                /\ replies st3 !! arrivals st2 = Some (Json200 (data c)))
  /\ log st3 = log st2
  /\ promises st3 = promises st2
  /\ ((forall p' x', promises st !! p' = Some (Pending x') ->
                     x_key x' = k -> p' = p) ->
      (forall h, h ∈ handlers st -> h_await h = Shared ->
                 cacheKey (h_request h) = k -> h_promise h = p) ->
      (forall t ev, (t, ev) ∈ mid -> t - now1 < CACHE_TTL) ->
      replies st3 !! arrivals st2 = Some (Json200 r)
      /\ fetches_for k (log st3) = fetches_for k (log st)).
Proof.
  intros k st1 st2 st3 Htask Hcontent Hprompt Hp Hx Hres Hafter Hlive.
  pose proof (cacheKey_agree rq1 rq2 Htask Hcontent Hprompt) as Hkey.
  fold k in Hkey.
  assert (Hc1 : responseCache st1 !! k
                = Some {| data := r; timestamp := now1 |}).
  { unfold st1. cbn [step]. rewrite wake_responseCache, Hp, Hres. cbn [snd].
    rewrite Hx. apply lookup_insert_eq. }
  assert (Hc2 : exists c, responseCache st2 !! k = Some c
                          /\ now1 <= timestamp c).
  { apply run_recent; [exact Hafter|]. eexists. split; [exact Hc1|].
    simpl. lia. }
  destruct Hc2 as (c & Hc2 & Hle).
  assert (Est3 : st3 = reply (arrivals st2) (Json200 (data c))
                         (set_arrivals (S (arrivals st2)) st2)).
  { unfold st3, step, POST. simpl. rewrite Hkey, Hc2.
    rewrite (cached_live now2 c) by lia. reflexivity. }
  split; [|split; [exact Hc1|split; [|split; [|split]]]].
  - intros h Hin Hh. unfold st1. cbn [step]. unfold wake. rewrite Hp.
    unfold advance. rewrite Hres, settle_unfold.
    apply fulfilled_replies. right.
    apply list_elem_of_fmap. exists h. split; [reflexivity|].
    apply list_elem_of_filter. split; [|exact Hin].
    unfold awaits. rewrite Hh. apply Nat.eqb_refl.
  - exists c. split; [exact Hc2|]. split; [exact Hle|].
    rewrite Est3. simpl. apply lookup_insert_eq.
  - rewrite Est3. reflexivity.
  - rewrite Est3. reflexivity.
  - intros Honly Hwaiters Hmid.
    destruct (cached_result_is_served st rq1 rq2 p x o acts r now1 now2 mid
                Htask Hcontent Hprompt Hp Hx Hres Honly Hwaiters Hmid Hlive)
      as (_ & _ & Hreply & _ & Hfetches).
    split; [exact Hreply | exact Hfetches].
Qed.

(** The second request differs from the first beyond the hundredth
    character of its content only; a request for another key arrives in
    between. *)
Lemma second_call_served_from_cache_witness :
  let st := run [(0, Arrives long_content_a)] init in
  let st1 := step 5 (FetchSettles 0 (FetchResponds (completion "summary"))) st in
  let st2 := run [(6, Arrives translate_hello)] st1 in
  content long_content_b <> content long_content_a
  /\ slice 100 (content long_content_b) = slice 100 (content long_content_a)
  /\ 1000 - 5 < CACHE_TTL
  /\ replies (step 1000 (Arrives long_content_b) st2) !! 2%nat
     = Some (Json200 {| result := Some (JStr "summary") |})
  /\ fetches_for (cacheKey long_content_a)
       (log (step 1000 (Arrives long_content_b) st2)) = 1%nat.
Proof.
  split; [discriminate|]. split; [reflexivity|]. split; [reflexivity|].
  pose proof (second_call_served_from_cache
                (run [(0, Arrives long_content_a)] init)
                long_content_a long_content_b 0
                (first_attempt (cacheKey long_content_a)
                   (default sample_call (select long_content_a)))
                (FetchResponds (completion "summary")) []
                {| result := Some (JStr "summary") |} 5 1000
                [(6, Arrives translate_hello)]
                eq_refl eq_refl eq_refl eq_refl eq_refl eq_refl) as H.
  destruct H as (_ & _ & _ & _ & _ & H).
  - intros t ev Hin. apply list_elem_of_singleton in Hin.
    injection Hin as -> _. discriminate.
  - reflexivity.
  - apply H.
    + intros [|p'] x' Hp' _; [reflexivity|].
      destruct p'; discriminate Hp'.
    + intros h Hin Hshared _. exfalso.
      apply list_elem_of_singleton in Hin. subst h. discriminate Hshared.
    + intros t ev Hin. apply list_elem_of_singleton in Hin.
      injection Hin as -> _. reflexivity.
Defined.

(** An unrecognized task that finds nothing to join is rejected. *)
Lemma POST_unrecognized now rq st :
  sound st -> select rq = None ->
  cached now (responseCache st !! cacheKey rq) = None ->
  (forall p x, ongoingRequests st !! cacheKey rq = Some p ->
               promises st !! p <> Some (Pending x)) ->
  POST now rq st = start (arrivals st) rq (set_arrivals (S (arrivals st)) st).
Proof.
  intros [_ Hon] Hsel Hc Hno. unfold POST. cbv zeta.
  change (responseCache (set_arrivals (S (arrivals st)) st))
    with (responseCache st).
  change (ongoingRequests (set_arrivals (S (arrivals st)) st))
    with (ongoingRequests st).
  change (promises (set_arrivals (S (arrivals st)) st)) with (promises st).
  rewrite Hc.
  destruct (ongoingRequests st !! cacheKey rq) as [p|] eqn:Ho; [|reflexivity].
  destruct (Hon _ _ Ho) as [(x & Hx & _)|Hrej].
  - exfalso. exact (Hno p x eq_refl Hx).
  - rewrite Hrej. reflexivity.
Qed.

(** C6, as the claim reads, fails. The key is built by joining task,
    content and prompt with colons, so the unrecognized task
    [summarize:a] with content [b] has the key of the recognized task
    [summarize] with content [a:b]. Once the latter has succeeded, the
    former is answered with its cached result, not with an error. *)
Lemma unrecognized_task_served_from_cache :
  let st := run [(0, Arrives colon_content);
                 (1, FetchSettles 0 (FetchResponds (completion "sum")));
                 (2, Arrives colon_task)] init in
  policy (task colon_task) = None
  /\ select colon_task = None
  /\ cacheKey colon_task = cacheKey colon_content
  /\ replies st !! 1%nat = Some (Json200 {| result := Some (JStr "sum") |}).
Proof. vm_compute. repeat split; reflexivity. Qed.

(** C6, amended: for a task of the table the selector yields a call with
    the table's model, temperature and token budget. For any other task it
    yields none, and, in any state the route can reach, a request with
    such a task that misses the cache and finds no pending promise under
    its key is rejected with "Invalid task type" before any network
    action: its promise is created rejected, the journal of network
    actions stays as it was, and the request is answered with the 500 of
    the outer catch. *)
Theorem select_follows_policy
    (evs : list (Z * Event)) (now : Z) (rq : Request) :
  let st := run evs init in
  let st' := step now (Arrives rq) st in
  match policy (task rq) with
  | Some (m, t, n) =>
      exists call, select rq = Some call /\ model call = m
                   /\ temperature call = t /\ maxTokens call = n
  | None =>
      select rq = None
      /\ error InvalidTask = "Invalid task type"
      /\ (cached now (responseCache st !! cacheKey rq) = None ->
          (forall p x, ongoingRequests st !! cacheKey rq = Some p ->
                       promises st !! p <> Some (Pending x)) ->
          promises st' = promises st ++ [Rejected InvalidTask]
          /\ log st' = log st
          /\ replies st' !! arrivals st = Some (Error500 object_Object))
  end
  /\ policy "summarize"
     = Some (default_model, QArith_base.Qmake 3 10, 1024)
  /\ policy "quiz" = Some (reasoning_model, QArith_base.Qmake 7 10, 1500)
  /\ policy "askdoubt" = Some (default_model, QArith_base.Qmake 4 10, 1024)
  /\ policy "mindmap" = Some (reasoning_model, QArith_base.Qmake 7 10, 2000)
  /\ policy "flashcards"
     = Some (default_model, QArith_base.Qmake 5 10, 1500).
Proof.
  intros st st'.
  destruct (select_against_policy rq (arrivals st)
              (set_arrivals (S (arrivals st)) st)) as [H rows].
  split; [|exact rows].
  destruct (policy (task rq)) as [[[m t] n]|]; [exact H|].
  destruct H as (Hsel & _ & He & _ & _).
  split; [exact Hsel|]. split; [exact He|]. intros Hc Hno.
  unfold st'. cbn [step].
  rewrite (POST_unrecognized now rq st (run_sound evs) Hsel Hc Hno).
  rewrite (start_unrecognized _ _ _ Hsel). simpl.
  split; [reflexivity|]. split; [reflexivity|]. apply lookup_insert_eq.
Qed.

(** A task outside the table, on a server that has seen one other
    request. *)
Lemma select_follows_policy_witness :
  let st := run [(0, Arrives summarize_cells)] init in
  policy (task translate_hello) = None
  /\ cached 1 (responseCache st !! cacheKey translate_hello) = None
  /\ replies (step 1 (Arrives translate_hello) st) !! 1%nat
     = Some (Error500 object_Object)
  /\ log (step 1 (Arrives translate_hello) st) = log st.
Proof.
  split; [reflexivity|]. split; [reflexivity|].
  pose proof (select_follows_policy [(0, Arrives summarize_cells)] 1
                translate_hello) as [H _].
  change (policy (task translate_hello)) with
    (@None (string * QArith_base.Q * Z)) in H.
  destruct H as (_ & _ & H).
  destruct H as (_ & Hlog & Hreply).
  - reflexivity.
  - intros p x Ho. vm_compute in Ho. discriminate Ho.
  - split; [exact Hreply | exact Hlog].
Defined.

End RouteCache.
